(** * TaigiCC: the weighted dictionary converter of [main.py]

    A shallow embedding of the [Converter] class: the two directional
    indexes built by [__init__], the scorer [calculate_weight], the candidate
    search [find_best_match] and the greedy scan [convert].

    Data is modelled as Python has it:
    - a [str] is a sequence of code points, [list N]; [len], slicing and
      indexing count code points;
    - a [float] is an IEEE 754 binary64 number, Rocq's primitive [float];
      weights are floats, as the annotation of [calculate_weight] has them;
    - a [dict] is a finite map ([gmap]); only membership tests and lookups by
      key are made on the indexes, so their iteration order plays no role;
    - a raised exception is the left injection of a sum;
    - the [while] loop of [convert] runs on explicit fuel, and is shown never
      to exhaust it once the fuel exceeds the length of the text. *)

From Stdlib Require Import Floats ZArith.
From stdpp Require Import gmap list strings.

Set Warnings "-inexact-float".

(** ** Python values *)

(** A Python string: a sequence of Unicode code points. *)
Abbreviation pystr := (list N).

(** String literals of the source, code point by code point. *)
Definition str (s : string) : pystr :=
  Ascii.N_of_ascii <$> String.list_ascii_of_string s.

(** Python's conversion of an [int] to a [float]: the nearest binary64
    number, ties to even. *)
Definition int_to_float (z : Z) : float :=
  SF2Prim (binary_normalize prec emax z 0 false).

(** The keys read from a dictionary entry: '台文', '華文' and '權重'. *)
Inductive field := F_tw | F_cn | F_weight.

(** The exceptions the class can raise. *)
Inductive exn :=
| KeyError (key : field)      (* entry['台文'] or entry['華文'] is absent *)
| ValueError (mode : pystr)   (* the mode is neither 't2c' nor 'c2t' *)
| IndexError                  (* text[pos] out of range *)
| TypeError.                  (* ''.join over a list holding None *)

(** ** The data model *)

(** One element of [data['entries']]: a JSON object in which each of the
    three fields may be absent. *)
Record entry := Entry {
  e_tw : option pystr;
  e_cn : option pystr;
  e_weight : option float
}.

(** The parsed JSON payload; both top-level keys are optional. *)
Record payload := Payload {
  p_dict_version : option Z;
  p_entries : option (list entry)
}.

(** A directional index: surface form -> [(replacement, weight), ...]. *)
Abbreviation index := (gmap pystr (list (pystr * float))).

Record Converter := MkConverter {
  dict_version : Z;
  entries : list entry;
  tw_to_zh : index;
  zh_to_tw : index
}.

(** ** [Converter.__init__] *)

(** [if key not in d: d[key] = []] followed by [d[key].append(cand)]. *)
Definition append_candidate (d : index) (key : pystr) (cand : pystr * float) : index :=
  let d1 := match d !! key with
            | None => <[key := []]> d
            | Some _ => d
            end in
  alter (λ l, l ++ [cand]) key d1.

(** The body of the [for entry in self.entries] loop. *)
Definition add_entry (st : index * index) (e : entry) : exn + (index * index) :=
  match e_tw e with
  | None => inl (KeyError F_tw)
  | Some tw =>
    match e_cn e with
    | None => inl (KeyError F_cn)
    | Some cn =>
      let weight := default 0%float (e_weight e) in
      inr (append_candidate st.1 tw (cn, weight),
           append_candidate st.2 cn (tw, weight))
    end
  end.

Fixpoint add_entries (st : index * index) (es : list entry) : exn + (index * index) :=
  match es with
  | [] => inr st
  | e :: es' =>
    match add_entry st e with
    | inl err => inl err
    | inr st' => add_entries st' es'
    end
  end.

Definition __init__ (data : payload) : exn + Converter :=
  let version := default 0%Z (p_dict_version data) in
  let es := default [] (p_entries data) in
  match add_entries (∅, ∅) es with
  | inl err => inl err
  | inr (t2z, z2t) => inr (MkConverter version es t2z z2t)
  end.

(** ** [Converter.calculate_weight] *)

Definition calculate_weight (text : pystr) (base_weight : float) : float :=
  let length_weight := (int_to_float (Z.of_nat (length text)) * 0.1)%float in
  (length_weight + base_weight)%float.

(** ** [Converter.find_best_match] *)

(** The four locals that hold the best candidate seen so far. *)
Record best := Best {
  best_match : option pystr;
  best_replacement : option pystr;
  best_weight : float;
  best_length : nat
}.

Definition no_best : best := Best None None neg_infinity 0.

(** The body of the inner loop, for one [(replacement, base_weight)]. *)
Definition consider (substring : pystr) (len : nat) (b : best)
    (cand : pystr * float) : best :=
  let '(replacement, base_weight) := cand in
  let total_weight := calculate_weight substring base_weight in
  if (best_weight b <? total_weight)%float   (* total_weight > best_weight *)
  then Best (Some substring) (Some replacement) total_weight len
  else b.

(** The body of the outer loop, for one [length]. *)
Definition probe (text : pystr) (pos : nat) (dictionary : index) (b : best)
    (len : nat) : best :=
  let substring := take len (drop pos text) in
  match dictionary !! substring with
  | Some cands => foldl (consider substring len) b cands
  | None => b
  end.

Definition search (text : pystr) (pos : nat) (dictionary : index) : best :=
  foldl (probe text pos dictionary) no_best (seq 1 (length text - pos)).

Definition find_best_match (text : pystr) (pos : nat) (dictionary : index)
    : option pystr * option pystr * nat :=
  let b := search text pos dictionary in
  (best_match b, best_replacement b, best_length b).

(** ** [Converter.convert] *)

(** Truth value of [match]: [None] and the empty string are false. *)
Definition truthy (o : option pystr) : bool :=
  match o with
  | Some (_ :: _) => true
  | _ => false
  end.

(** The body of the [while] loop: the new [pos] and [result]. The list
    [result] holds what was appended, [None] included. *)
Definition loop_body (text : pystr) (dictionary : index) (pos : nat)
    (result : list (option pystr)) : exn + (nat * list (option pystr)) :=
  let '(match_, replacement, len) := find_best_match text pos dictionary in
  if truthy match_ then inr (pos + len, result ++ [replacement])
  else match text !! pos with
       | Some ch => inr (pos + 1, result ++ [Some [ch]])
       | None => inl IndexError
       end.

(** [while pos < len(text)], with [None] when the fuel runs out. *)
Fixpoint convert_loop (fuel : nat) (text : pystr) (dictionary : index)
    (pos : nat) (result : list (option pystr))
    : option (exn + list (option pystr)) :=
  match fuel with
  | 0 => None
  | S fuel' =>
    if decide (pos < length text) then
      match loop_body text dictionary pos result with
      | inl err => Some (inl err)
      | inr (pos', result') => convert_loop fuel' text dictionary pos' result'
      end
    else Some (inr result)
  end.

(** [''.join(result)]. *)
Fixpoint join (pieces : list (option pystr)) : exn + pystr :=
  match pieces with
  | [] => inr []
  | None :: _ => inl TypeError
  | Some s :: rest =>
    match join rest with
    | inl err => inl err
    | inr t => inr (s ++ t)
    end
  end.

(** The [if mode == 't2c' ... elif mode == 'c2t' ... else raise]. *)
Definition select_dictionary (self : Converter) (mode : pystr) : exn + index :=
  if decide (mode = str "t2c") then inr (tw_to_zh self)
  else if decide (mode = str "c2t") then inr (zh_to_tw self)
  else inl (ValueError mode).

Definition convert (fuel : nat) (self : Converter) (text mode : pystr)
    : option (exn + pystr) :=
  match select_dictionary self mode with
  | inl err => Some (inl err)
  | inr dictionary =>
    match convert_loop fuel text dictionary 0 [] with
    | None => None
    | Some (inl err) => Some (inl err)
    | Some (inr result) => Some (join result)
    end
  end.

(** ** The order of binary64 numbers

    Python's [>] on floats is the IEEE comparison: [a > b] is [b <? a], and
    every comparison with a NaN is false. The comparison of the specification
    floats is read through a key ordered lexicographically. *)

Definition sf_key (x : spec_float) : option (Z * Z * Z) :=
  match x with
  | S754_nan => None
  | S754_infinity s => Some (if s then (-2, 0, 0) else (2, 0, 0))%Z
  | S754_zero _ => Some (0, 0, 0)%Z
  | S754_finite s m e =>
    Some (if s then (-1, - e, - Z.pos m) else (1, e, Z.pos m))%Z
  end.

Definition key_lt (a b : Z * Z * Z) : Prop :=
  (a.1.1 < b.1.1 ∨
   (a.1.1 = b.1.1 ∧ (a.1.2 < b.1.2 ∨ (a.1.2 = b.1.2 ∧ a.2 < b.2))))%Z.

(** [flt a b]: [a < b] holds in Python; [fle a b]: [a <= b] holds. *)
Definition flt (a b : float) : Prop := (a <? b)%float = true.
Definition fle (a b : float) : Prop := (a <=? b)%float = true.

(** ** Definitions used to state the properties *)

(** The candidates an entry list gives for key [k], in list order, where
    [key] and [val] read the keyed and the replacing side of an entry. *)
Definition cands_for (key val : entry → option pystr) (k : pystr)
    (es : list entry) : list (pystr * float) :=
  e ← es;
  match key e, val e with
  | Some k', Some v =>
    if decide (k' = k) then [(v, default 0%float (e_weight e))] else []
  | _, _ => []
  end.

(** What appending the candidates [l] does to the value under a key. *)
Definition extend (o : option (list (pystr * float))) (l : list (pystr * float))
    : option (list (pystr * float)) :=
  match l with
  | [] => o
  | _ => Some (default [] o ++ l)
  end.

(** The candidates [find_best_match] meets at [pos], in the order of the two
    nested loops: ascending length, then the list stored under the key. *)
Definition scan_order (text : pystr) (pos : nat) (dictionary : index)
    : list (pystr * nat * (pystr * float)) :=
  len ← seq 1 (length text - pos);
  cand ← default [] (dictionary !! take len (drop pos text));
  [(take len (drop pos text), len, cand)].

Definition score (c : pystr * nat * (pystr * float)) : float :=
  calculate_weight c.1.1 c.2.2.

(** The locals after candidate [c] has replaced the best. *)
Definition chosen (c : pystr * nat * (pystr * float)) : best :=
  Best (Some c.1.1) (Some c.2.1) (score c) c.1.2.

Definition step (b : best) (c : pystr * nat * (pystr * float)) : best :=
  consider c.1.1 c.1.2 b c.2.

(** [first_max cs b]: [b] holds the first candidate of [cs] whose score is
    maximal, or nothing when no score exceeds negative infinity. *)
Definition first_max (cs : list (pystr * nat * (pystr * float))) (b : best) : Prop :=
  (b = no_best ∧ ∀ c, c ∈ cs → ¬ flt neg_infinity (score c)) ∨
  (∃ i c, cs !! i = Some c ∧ b = chosen c ∧ flt neg_infinity (score c) ∧
     (∀ c', c' ∈ cs → ¬ flt (score c) (score c')) ∧
     (∀ j c', j < i → cs !! j = Some c' → ¬ fle (score c) (score c'))).

(** The scorer as the specification words it. *)
Definition char_count (surface : pystr) : float :=
  int_to_float (Z.of_nat (length surface)).

Definition spec_score (surface : pystr) (base_weight : float) : float :=
  (char_count surface * 0.1 + base_weight)%float.

(** ** The dictionaries of the worked examples *)

Definition entry_of (tw cn : string) (weight : option float) : entry :=
  Entry (Some (str tw)) (Some (str cn)) weight.

(** {"ab": [("X", 1.0)], "a": [("Y", 5.0)]} *)
Definition payload_override : payload :=
  Payload None (Some [entry_of "ab" "X" (Some 1%float);
                      entry_of "a" "Y" (Some 5%float)]).

(** {"ab": [("X", w_ab)], "a": [("Y", w_a)]}, for any two weights. *)
Definition payload_weights (w_ab w_a : float) : payload :=
  Payload None (Some [entry_of "ab" "X" (Some w_ab);
                      entry_of "a" "Y" (Some w_a)]).

(** What [find_best_match] returns at position 0 of "ab" with that
    dictionary, read off the two comparisons of the inner loop: "a" is met
    first and "ab" replaces it only on a strictly greater score. *)
Definition two_key_choice (w_ab w_a : float) : option pystr * option pystr * nat :=
  let s_a := calculate_weight (str "a") w_a in
  let s_ab := calculate_weight (str "ab") w_ab in
  if (neg_infinity <? s_a)%float then
    if (s_a <? s_ab)%float then (Some (str "ab"), Some (str "X"), 2)
    else (Some (str "a"), Some (str "Y"), 1)
  else
    if (neg_infinity <? s_ab)%float then (Some (str "ab"), Some (str "X"), 2)
    else (None, None, 0).

(** The forward conversion of "ab" that goes with each choice: "ab"
    replaced by "X"; "a" replaced by "Y" and "b" copied; or both copied. *)
Definition two_key_output (w_ab w_a : float) : pystr :=
  match two_key_choice w_ab w_a with
  | (Some _, _, 2) => str "X"
  | (Some _, _, _) => str "Yb"
  | (None, _, _) => str "ab"
  end.

(** {"a": [("Y1", 0.0), ("Y2", 0.0)]} *)
Definition payload_tie : payload :=
  Payload None (Some [entry_of "a" "Y1" (Some 0%float);
                      entry_of "a" "Y2" (Some 0%float)]).

(** An entry whose replacement is the empty string. *)
Definition payload_erase : payload :=
  Payload None (Some [entry_of "a" "" None]).

(** An entry whose weight is negative infinity, as [json.load] reads the
    literal [-Infinity]. *)
Definition payload_neg_infinity : payload :=
  Payload None (Some [entry_of "a" "X" (Some neg_infinity)]).

(** Entries with negative weights only. *)
Definition payload_negative : payload :=
  Payload None (Some [entry_of "a" "X" (Some (-5)%float);
                      entry_of "ab" "Z" (Some (-7)%float)]).

(** An entry whose source form is the empty string. *)
Definition payload_empty_source : payload :=
  Payload None (Some [entry_of "" "X" None]).

(** An entry without its target field, after a complete one. *)
Definition payload_malformed : payload :=
  Payload (Some 1%Z) (Some [entry_of "a" "X" None;
                            Entry (Some (str "b")) None (Some 1%float)]).

(** ** Segments of a conversion *)

(** A consumed piece of text with what was appended for it: a character
    passed through, or a key of the index with one of its replacements. *)
Definition segment_ok (dictionary : index) (seg : pystr * pystr) : Prop :=
  seg.1 ≠ [] ∧
  ((∃ ch, seg.1 = [ch] ∧ seg.2 = [ch]) ∨
   (∃ cands w, dictionary !! seg.1 = Some cands ∧ (seg.2, w) ∈ cands)).

(** ** Properties of the float order *)

Section float_order.

Lemma SFcompare_key x y :
  SFcompare x y =
    match sf_key x, sf_key y with
    | Some a, Some b =>
      Some (match (a.1.1 ?= b.1.1)%Z with
            | Eq => match (a.1.2 ?= b.1.2)%Z with
                    | Eq => (a.2 ?= b.2)%Z
                    | c => c
                    end
            | c => c
            end)
    | _, _ => None
    end.
Proof.
  destruct x as [sx|sx| |sx mx ex], y as [sy|sy| |sy my ey];
    try destruct sx; try destruct sy; simpl; try reflexivity.
  rewrite Z.compare_opp, (Z.compare_antisym ex ey).
  destruct (ex ?= ey)%Z; reflexivity.
Qed.

Lemma SFltb_key x y :
  SFltb x y = true ↔ ∃ a b, sf_key x = Some a ∧ sf_key y = Some b ∧ key_lt a b.
Proof.
  unfold SFltb, key_lt. rewrite SFcompare_key.
  destruct (sf_key x) as [[[a1 a2] a3]|], (sf_key y) as [[[b1 b2] b3]|];
    simpl; try (split; [discriminate | intros (?&?&?&?&?); congruence]).
  destruct (Z.compare_spec a1 b1); [destruct (Z.compare_spec a2 b2);
    [destruct (Z.compare_spec a3 b3)|..]|..];
    (split; [intros ?; eexists _, _; split_and!; [done..|simpl; try lia; try done]
            |intros (?&?&?&?&?); simplify_eq/=; try done; try lia]).
Qed.

Lemma SFleb_key x y :
  SFleb x y = true ↔
    ∃ a b, sf_key x = Some a ∧ sf_key y = Some b ∧ ¬ key_lt b a.
Proof.
  unfold SFleb, key_lt. rewrite SFcompare_key.
  destruct (sf_key x) as [[[a1 a2] a3]|], (sf_key y) as [[[b1 b2] b3]|];
    simpl; try (split; [discriminate | intros (?&?&?&?&?); congruence]).
  destruct (Z.compare_spec a1 b1); [destruct (Z.compare_spec a2 b2);
    [destruct (Z.compare_spec a3 b3)|..]|..];
    (split; [intros ?; eexists _, _; split_and!; [done..|simpl; try lia; try done]
            |intros (?&?&?&?&?); simplify_eq/=; try done; try lia]).
Qed.

Lemma flt_key a b :
  flt a b ↔ ∃ ka kb, sf_key (Prim2SF a) = Some ka ∧
                     sf_key (Prim2SF b) = Some kb ∧ key_lt ka kb.
Proof. unfold flt. rewrite FloatAxioms.ltb_spec. apply SFltb_key. Qed.

Lemma fle_key a b :
  fle a b ↔ ∃ ka kb, sf_key (Prim2SF a) = Some ka ∧
                     sf_key (Prim2SF b) = Some kb ∧ ¬ key_lt kb ka.
Proof. unfold fle. rewrite FloatAxioms.leb_spec. apply SFleb_key. Qed.

Lemma flt_irrefl a : ¬ flt a a.
Proof.
  rewrite flt_key. intros (ka & kb & Ha & Hb & Hlt).
  simplify_eq. unfold key_lt in Hlt. lia.
Qed.

Lemma flt_trans a b c : flt a b → flt b c → flt a c.
Proof.
  rewrite !flt_key. intros (ka & kb & Ha & Hb & Hab) (kb' & kc & Hb' & Hc & Hbc).
  simplify_eq. exists ka, kc. split_and!; [done..|].
  unfold key_lt in *. lia.
Qed.

Lemma flt_fle_trans a b c : flt a b → fle b c → flt a c.
Proof.
  rewrite !flt_key, fle_key.
  intros (ka & kb & Ha & Hb & Hab) (kb' & kc & Hb' & Hc & Hbc).
  simplify_eq. exists ka, kc. split_and!; [done..|].
  unfold key_lt in *.
  destruct ka as [[??]?], kb as [[??]?], kc as [[??]?]; simpl in *. lia.
Qed.

(** Python's [==] on floats excludes [<] in both directions. *)
Lemma feq_order a b :
  (a =? b)%float = true → ¬ flt a b ∧ ¬ flt b a ∧ fle a b ∧ fle b a.
Proof.
  unfold flt, fle.
  rewrite FloatAxioms.eqb_spec, !FloatAxioms.ltb_spec, !FloatAxioms.leb_spec.
  unfold SFeqb, SFltb, SFleb. rewrite !SFcompare_key.
  destruct (sf_key (Prim2SF a)) as [[[a1 a2] a3]|],
           (sf_key (Prim2SF b)) as [[[b1 b2] b3]|]; simpl; try discriminate.
  rewrite (Z.compare_antisym a1 b1), (Z.compare_antisym a2 b2),
          (Z.compare_antisym a3 b3).
  destruct (a1 ?= b1)%Z; simpl; try discriminate.
  destruct (a2 ?= b2)%Z; simpl; try discriminate.
  destruct (a3 ?= b3)%Z; simpl; try discriminate. auto.
Qed.

End float_order.

(** ** The indexes built by [__init__] *)

Section indexes.

Lemma lookup_append_candidate (d : index) key cand k :
  append_candidate d key cand !! k =
    if decide (key = k) then Some (default [] (d !! k) ++ [cand]) else d !! k.
Proof.
  unfold append_candidate. case_decide as Hk.
  - subst k. destruct (d !! key) as [l|] eqn:Hd.
    + by rewrite lookup_alter_eq, Hd.
    + by rewrite lookup_alter_eq, lookup_insert_eq.
  - rewrite lookup_alter_ne by done.
    destruct (d !! key); [done|]. by rewrite lookup_insert_ne.
Qed.

Lemma extend_app o l1 l2 : extend (extend o l1) l2 = extend o (l1 ++ l2).
Proof.
  destruct l1 as [|x l1]; [done|]. destruct l2 as [|y l2]; simpl.
  - by rewrite app_nil_r.
  - by rewrite <- app_assoc.
Qed.

Lemma extend_cons o x l : extend (Some (default [] o ++ [x])) l = extend o (x :: l).
Proof. exact (extend_app o [x] l). Qed.

Lemma add_entries_fields st es st' e :
  add_entries st es = inr st' → e ∈ es → is_Some (e_tw e) ∧ is_Some (e_cn e).
Proof.
  revert st. induction es as [|e0 es IH]; intros st Hadd Hin.
  - by apply elem_of_nil in Hin.
  - simpl in Hadd. unfold add_entry in Hadd.
    destruct (e_tw e0) as [tw|] eqn:Htw; [|done].
    destruct (e_cn e0) as [cn|] eqn:Hcn; [|done].
    apply elem_of_cons in Hin as [->|Hin]; [by rewrite Htw, Hcn|].
    by eapply IH.
Qed.

Lemma add_entries_lookup st es st' k :
  add_entries st es = inr st' →
  st'.1 !! k = extend (st.1 !! k) (cands_for e_tw e_cn k es) ∧
  st'.2 !! k = extend (st.2 !! k) (cands_for e_cn e_tw k es).
Proof.
  revert st. induction es as [|e es IH]; intros st Hadd.
  - simpl in Hadd. by simplify_eq.
  - simpl in Hadd. unfold add_entry in Hadd.
    destruct (e_tw e) as [tw|] eqn:Htw; [|done].
    destruct (e_cn e) as [cn|] eqn:Hcn; [|done].
    apply IH in Hadd as [H1 H2]. simpl in H1, H2.
    rewrite H1, H2, !lookup_append_candidate.
    unfold cands_for. rewrite !bind_cons, Htw, Hcn.
    split; case_decide; simpl; try done; apply extend_cons.
Qed.

Lemma add_entries_fails st es e :
  e ∈ es → e_tw e = None ∨ e_cn e = None →
  ∃ key, add_entries st es = inl (KeyError key) ∧ (key = F_tw ∨ key = F_cn).
Proof.
  revert st. induction es as [|e0 es IH]; intros st Hin Hmiss.
  - by apply elem_of_nil in Hin.
  - simpl. unfold add_entry.
    destruct (e_tw e0) as [tw|] eqn:Htw; [|by eauto].
    destruct (e_cn e0) as [cn|] eqn:Hcn; [|by eauto].
    apply elem_of_cons in Hin as [->|Hin]; [|by apply IH].
    destruct Hmiss; congruence.
Qed.

Lemma elem_of_cands_for key val k es v w :
  (v, w) ∈ cands_for key val k es ↔
    ∃ e, e ∈ es ∧ key e = Some k ∧ val e = Some v ∧
         w = default 0%float (e_weight e).
Proof.
  unfold cands_for. rewrite list_elem_of_bind. split.
  - intros (e & Hvw & He). exists e.
    destruct (key e) as [k'|]; [|by apply elem_of_nil in Hvw].
    destruct (val e) as [v'|]; [|by apply elem_of_nil in Hvw].
    case_decide; [|by apply elem_of_nil in Hvw].
    apply list_elem_of_singleton in Hvw. by simplify_eq.
  - intros (e & He & Hk & Hv & ->). exists e. rewrite Hk, Hv.
    rewrite decide_True by done. split; [|done]. by apply list_elem_of_singleton.
Qed.

Lemma init_lookup data c k :
  __init__ data = inr c →
  tw_to_zh c !! k = extend None (cands_for e_tw e_cn k (entries c)) ∧
  zh_to_tw c !! k = extend None (cands_for e_cn e_tw k (entries c)).
Proof.
  unfold __init__. intros Hinit.
  destruct (add_entries (∅, ∅) (default [] (p_entries data)))
    as [err|[t2z z2t]] eqn:Hadd; [done|].
  simplify_eq. simpl.
  apply (add_entries_lookup _ _ _ k) in Hadd as [H1 H2]. simpl in H1, H2.
  by rewrite H1, H2, !lookup_empty.
Qed.

Lemma add_entries_succeeds st es :
  (∀ e, e ∈ es → is_Some (e_tw e) ∧ is_Some (e_cn e)) →
  ∃ st', add_entries st es = inr st'.
Proof.
  revert st. induction es as [|e es IH]; intros st Hes; [by eexists|].
  simpl. unfold add_entry.
  destruct (Hes e) as [[tw ->] [cn ->]]; [by left|].
  apply IH. intros e' He'. apply Hes. by right.
Qed.

(** An entry keyed by something else adds no candidate under [k]. *)
Lemma cands_for_remove key val k es1 e es2 :
  key e ≠ Some k →
  cands_for key val k (es1 ++ e :: es2) = cands_for key val k (es1 ++ es2).
Proof.
  intros Hk. unfold cands_for. rewrite !bind_app, bind_cons.
  destruct (key e) as [k'|]; [|done].
  destruct (val e); [|done]. rewrite decide_False by congruence. done.
Qed.

Lemma extend_None_Some l l' : extend None l = Some l' → l' = l ∧ l ≠ [].
Proof. destruct l; [done|]. simpl. intros; by simplify_eq. Qed.

End indexes.

(** ** The candidate search *)

Section search.

Lemma foldl_bind {A B C} (f : A → C → A) (g : B → list C) a l :
  foldl f a (l ≫= g) = foldl (λ a' x, foldl f a' (g x)) a l.
Proof.
  revert a. induction l as [|x l IH]; intros a; [done|].
  by rewrite bind_cons, foldl_app, IH.
Qed.

Lemma foldl_step_singletons sub len b cands :
  foldl step b (cands ≫= λ cand, [(sub, len, cand)]) =
  foldl (consider sub len) b cands.
Proof. rewrite foldl_bind. done. Qed.

(** The two nested loops visit exactly [scan_order], in that order. *)
Lemma search_scan_order text pos dictionary :
  search text pos dictionary = foldl step no_best (scan_order text pos dictionary).
Proof.
  unfold search, scan_order. rewrite foldl_bind.
  generalize no_best. induction (seq 1 (length text - pos)) as [|len lens IH];
    intros b; [done|].
  simpl. rewrite <- IH. f_equal.
  unfold probe. rewrite foldl_step_singletons.
  by destruct (dictionary !! take len (drop pos text)).
Qed.

Lemma step_unfold b c :
  step b c = if (best_weight b <? score c)%float then chosen c else b.
Proof. by destruct c as [[sub len] [r w]]. Qed.

Lemma first_max_snoc cs b c : first_max cs b → first_max (cs ++ [c]) (step b c).
Proof.
  rewrite step_unfold.
  intros [[-> Hnone]|(i & c0 & Hi & -> & Hinf & Hmax & Hfirst)]; simpl.
  - destruct (neg_infinity <? score c)%float eqn:Hc.
    + right. exists (length cs), c. split_and!; [|done..| |].
      * by rewrite lookup_app_r, Nat.sub_diag by lia.
      * intros c' [Hc'| ->%list_elem_of_singleton]%elem_of_app Hlt.
        -- apply (Hnone c' Hc'). by eapply flt_trans.
        -- by apply flt_irrefl in Hlt.
      * intros j c' Hj Hc' Hle. rewrite lookup_app_l in Hc' by done.
        apply (Hnone c'); [by eapply list_elem_of_lookup_2|].
        by eapply flt_fle_trans.
    + left. split; [done|].
      intros c' [Hc'| ->%list_elem_of_singleton]%elem_of_app; [by apply Hnone|].
      unfold flt. by rewrite Hc.
  - destruct (score c0 <? score c)%float eqn:Hc.
    + right. exists (length cs), c. split_and!; [|done| | |].
      * by rewrite lookup_app_r, Nat.sub_diag by lia.
      * by eapply flt_trans.
      * intros c' [Hc'| ->%list_elem_of_singleton]%elem_of_app Hlt.
        -- apply (Hmax c' Hc'). by eapply flt_trans.
        -- by apply flt_irrefl in Hlt.
      * intros j c' Hj Hc' Hle. rewrite lookup_app_l in Hc' by done.
        apply (Hmax c'); [by eapply list_elem_of_lookup_2|].
        by eapply flt_fle_trans.
    + right. exists i, c0. split_and!; [|done..| |].
      * apply lookup_app_l_Some, Hi.
      * intros c' [Hc'| ->%list_elem_of_singleton]%elem_of_app; [by apply Hmax|].
        unfold flt. by rewrite Hc.
      * intros j c' Hj Hc'. apply (Hfirst j c' Hj).
        apply lookup_lt_Some in Hi. by rewrite lookup_app_l in Hc' by lia.
Qed.

Lemma foldl_step_first_max cs : first_max cs (foldl step no_best cs).
Proof.
  induction cs as [|c cs IH] using rev_ind.
  - left. split; [done|]. intros c Hc. by apply elem_of_nil in Hc.
  - rewrite foldl_snoc. by apply first_max_snoc.
Qed.

Lemma search_first_max text pos dictionary :
  first_max (scan_order text pos dictionary) (search text pos dictionary).
Proof. rewrite search_scan_order. apply foldl_step_first_max. Qed.

(** What a candidate of [scan_order] is. *)
Lemma elem_of_scan_order text pos dictionary c :
  c ∈ scan_order text pos dictionary ↔
    1 ≤ c.1.2 ≤ length text - pos ∧
    c.1.1 = take c.1.2 (drop pos text) ∧
    ∃ cands, dictionary !! c.1.1 = Some cands ∧ c.2 ∈ cands.
Proof.
  unfold scan_order. rewrite list_elem_of_bind. split.
  - intros (len & Hc & Hlen). apply elem_of_seq in Hlen.
    apply list_elem_of_bind in Hc as (cand & ->%list_elem_of_singleton & Hcand).
    simpl. split_and!; [lia..|done|].
    destruct (dictionary !! take len (drop pos text)) as [cands|];
      [by eauto|by apply elem_of_nil in Hcand].
  - destruct c as [[sub len] cand]. simpl.
    intros (Hlen & -> & cands & Hd & Hcand). exists len. split.
    + apply list_elem_of_bind. exists cand. rewrite Hd. simpl.
      split; [by apply list_elem_of_singleton|done].
    + apply elem_of_seq. lia.
Qed.

Lemma scan_order_length text pos dictionary c :
  c ∈ scan_order text pos dictionary → length c.1.1 = c.1.2.
Proof.
  intros (Hlen & -> & _)%elem_of_scan_order.
  rewrite length_take, length_drop. lia.
Qed.

(** A candidate that has been chosen makes [match] true. *)
Lemma truthy_chosen text pos dictionary c :
  c ∈ scan_order text pos dictionary → truthy (best_match (chosen c)) = true.
Proof.
  intros Hc. pose proof (scan_order_length _ _ _ _ Hc) as Hlen.
  apply elem_of_scan_order in Hc as (Hc & _). simpl.
  destruct (c.1.1); [simpl in Hlen; lia|done].
Qed.

End search.

(** ** The scan of [convert] *)

Section scan.

(** The two outcomes of [find_best_match]: nothing, or a chosen candidate. *)
Lemma find_best_match_cases text pos dictionary :
  (find_best_match text pos dictionary = (None, None, 0) ∧
   ∀ c, c ∈ scan_order text pos dictionary → ¬ flt neg_infinity (score c)) ∨
  (∃ c, c ∈ scan_order text pos dictionary ∧
        find_best_match text pos dictionary = (Some c.1.1, Some c.2.1, c.1.2) ∧
        flt neg_infinity (score c)).
Proof.
  unfold find_best_match.
  destruct (search_first_max text pos dictionary)
    as [[-> Hnone]|(i & c & Hi & -> & Hinf & _)].
  - by left.
  - right. exists c. split_and!; [by eapply list_elem_of_lookup_2|done..].
Qed.

(** One iteration: a piece is appended and [pos] moves forward, by at
    least one and not beyond the end of the text. *)
Lemma loop_body_ok text dictionary pos result :
  pos < length text →
  ∃ pos' piece,
    loop_body text dictionary pos result = inr (pos', result ++ [Some piece]) ∧
    pos + 1 ≤ pos' ≤ length text ∧
    ((∃ ch, piece = [ch]) ∨
     (∃ k cands w, dictionary !! k = Some cands ∧ (piece, w) ∈ cands)).
Proof.
  intros Hpos. unfold loop_body.
  destruct (find_best_match_cases text pos dictionary)
    as [[-> _]|(c & Hc & -> & _)]; simpl.
  - destruct (lookup_lt_is_Some_2 text pos Hpos) as [ch ->].
    exists (pos + 1), [ch]. split_and!; [done|lia..|by eauto].
  - pose proof (truthy_chosen _ _ _ _ Hc) as Htrue. simpl in Htrue.
    rewrite Htrue. apply elem_of_scan_order in Hc as (Hlen & _ & cands & Hd & Hin).
    exists (pos + c.1.2), c.2.1. split_and!; [done|lia..|].
    right. exists c.1.1, cands, c.2.2. by destruct c as [? [??]].
Qed.

(** With more fuel than characters left, the loop ends without error, and
    every piece it has appended is a string. *)
Lemma convert_loop_ok fuel text dictionary pos acc :
  pos ≤ length text → length text - pos < fuel →
  ∃ pieces,
    convert_loop fuel text dictionary pos (Some <$> acc) =
      Some (inr (Some <$> (acc ++ pieces))) ∧
    Forall (λ piece, (∃ ch, piece = [ch]) ∨
       (∃ k cands w, dictionary !! k = Some cands ∧ (piece, w) ∈ cands)) pieces.
Proof.
  revert pos acc. induction fuel as [|fuel IH]; intros pos acc Hpos Hfuel; [lia|].
  simpl. case_decide as Hlt.
  - destruct (loop_body_ok text dictionary pos (Some <$> acc) Hlt)
      as (pos' & piece & -> & Hpos' & Hpiece).
    destruct (IH pos' (acc ++ [piece])) as (pieces & Hloop & Hall); [lia..|].
    exists (piece :: pieces). rewrite fmap_app in Hloop. simpl in Hloop.
    rewrite Hloop, <- app_assoc. split; [done|]. by constructor.
  - exists []. by rewrite app_nil_r.
Qed.

Lemma join_Some pieces : join (Some <$> pieces) = inr (concat pieces).
Proof.
  induction pieces as [|s pieces IH]; [done|].
  rewrite fmap_cons. simpl. by rewrite IH.
Qed.

Lemma length_concat_ge (pieces : list pystr) :
  Forall (λ piece, piece ≠ []) pieces → length pieces ≤ length (concat pieces).
Proof.
  induction 1 as [|piece pieces Hne _ IH]; simpl; [done|].
  rewrite length_app. destruct piece; [done|]. simpl. lia.
Qed.

(** The whole of [convert], for a mode that selects a dictionary. *)
Lemma convert_ok fuel self text mode dictionary :
  select_dictionary self mode = inr dictionary → length text < fuel →
  ∃ pieces,
    convert_loop fuel text dictionary 0 [] = Some (inr (Some <$> pieces)) ∧
    convert fuel self text mode = Some (inr (concat pieces)) ∧
    Forall (λ piece, (∃ ch, piece = [ch]) ∨
       (∃ k cands w, dictionary !! k = Some cands ∧ (piece, w) ∈ cands)) pieces.
Proof.
  intros Hsel Hfuel.
  destruct (convert_loop_ok fuel text dictionary 0 []) as (pieces & Hloop & Hall);
    [lia..|].
  exists pieces. unfold convert. rewrite Hsel. simpl in Hloop.
  rewrite Hloop. simpl. by rewrite join_Some.
Qed.

Lemma select_dictionary_valid self mode :
  mode = str "t2c" ∨ mode = str "c2t" →
  ∃ dictionary, select_dictionary self mode = inr dictionary.
Proof. unfold select_dictionary. intros [-> | ->]; by eauto. Qed.

(** More fuel does not change a result. *)
Lemma convert_loop_mono fuel fuel' text dictionary pos result r :
  convert_loop fuel text dictionary pos result = Some r → fuel ≤ fuel' →
  convert_loop fuel' text dictionary pos result = Some r.
Proof.
  revert fuel' pos result.
  induction fuel as [|fuel IH]; intros fuel' pos result; [done|].
  intros Hloop Hle. destruct fuel' as [|fuel']; [lia|]. simpl in *.
  case_decide; [|done].
  destruct (loop_body text dictionary pos result) as [err|[pos' result']];
    [done|].
  apply IH; [done|lia].
Qed.

Lemma convert_mono fuel fuel' self text mode r :
  convert fuel self text mode = Some r → fuel ≤ fuel' →
  convert fuel' self text mode = Some r.
Proof.
  unfold convert. destruct (select_dictionary self mode) as [err|d]; [done|].
  destruct (convert_loop fuel text d 0 []) as [r'|] eqn:Hloop; [|done].
  intros Hr Hle. by rewrite (convert_loop_mono _ _ _ _ _ _ _ Hloop Hle).
Qed.

(** Indexes that agree on the non-empty keys give the same scan. *)
Lemma scan_order_ext (text : pystr) (pos : nat) (d1 d2 : index) :
  (∀ k, k ≠ [] → d1 !! k = d2 !! k) →
  scan_order text pos d1 = scan_order text pos d2.
Proof.
  intros Hagree. unfold scan_order. apply Forall_bind_ext, Forall_forall.
  intros len Hlen%elem_of_seq. rewrite Hagree; [done|].
  intros Hnil%(f_equal length). rewrite length_take, length_drop in Hnil.
  simpl in Hnil. lia.
Qed.

Lemma find_best_match_ext (text : pystr) (pos : nat) (d1 d2 : index) :
  (∀ k, k ≠ [] → d1 !! k = d2 !! k) →
  find_best_match text pos d1 = find_best_match text pos d2.
Proof.
  intros Hagree. unfold find_best_match.
  by rewrite !search_scan_order, (scan_order_ext _ _ d1 d2).
Qed.

Lemma convert_loop_ext (fuel : nat) (text : pystr) (d1 d2 : index)
    (pos : nat) (result : list (option pystr)) :
  (∀ k, k ≠ [] → d1 !! k = d2 !! k) →
  convert_loop fuel text d1 pos result = convert_loop fuel text d2 pos result.
Proof.
  intros Hagree. revert pos result.
  induction fuel as [|fuel IH]; intros pos result; [done|].
  simpl. unfold loop_body. rewrite (find_best_match_ext _ _ d1 d2) by done.
  case_decide; [|done].
  destruct (find_best_match text pos d2) as [[m r] len].
  destruct (truthy m); [by rewrite IH|].
  destruct (text !! pos); [by rewrite IH|done].
Qed.

(** Nothing is found in an empty index. *)
Lemma find_best_match_empty text pos :
  find_best_match text pos ∅ = (None, None, 0).
Proof.
  unfold find_best_match. rewrite search_scan_order.
  replace (scan_order text pos ∅) with (@nil (pystr * nat * (pystr * float))); [done|].
  unfold scan_order. induction (seq 1 (length text - pos)) as [|len lens IH]; [done|].
  by rewrite bind_cons, lookup_empty, <- IH.
Qed.

Lemma convert_loop_empty fuel text pos acc :
  pos ≤ length text → length text - pos < fuel →
  convert_loop fuel text ∅ pos (Some <$> acc) =
    Some (inr (Some <$> (acc ++ ((λ ch, [ch]) <$> drop pos text)))).
Proof.
  revert pos acc. induction fuel as [|fuel IH]; intros pos acc Hpos Hfuel; [lia|].
  simpl. case_decide as Hlt.
  - unfold loop_body. rewrite find_best_match_empty. simpl.
    destruct (text !! pos) as [ch|] eqn:Hch;
      [|apply lookup_ge_None in Hch; lia].
    specialize (IH (pos + 1) (acc ++ [[ch]])).
    rewrite fmap_app in IH. simpl in IH. rewrite IH by lia.
    rewrite (drop_S text ch pos Hch), <- app_assoc, Nat.add_1_r. done.
  - rewrite drop_ge by lia. by rewrite app_nil_r.
Qed.

Lemma concat_singletons (text : pystr) : concat ((λ ch, [ch]) <$> text) = text.
Proof.
  induction text as [|ch text IH]; [done|].
  rewrite fmap_cons. simpl. by rewrite IH.
Qed.

End scan.

(** ** The scorer *)

(** The arithmetic is binary64: the product with 0.1 is rounded. *)
Example calculate_weight_rounds :
  calculate_weight (str "abc") 0 = 0.30000000000000004%float.
Proof. reflexivity. Qed.

(** C6: for every surface string and base weight, [calculate_weight] returns
    [char_count surface * 0.1 + base_weight] in binary64 arithmetic, where
    [char_count] is the number of code points of the surface converted to a
    float: two code points count as two whatever their encoded size. The
    scorer is a total function of its two arguments: it raises nothing and
    reads no state. *)
Theorem C6_scorer_formula (surface : pystr) (base_weight : float) :
  calculate_weight surface base_weight = spec_score surface base_weight ∧
  char_count surface = int_to_float (Z.of_nat (length surface)) ∧
  calculate_weight surface base_weight =
    (int_to_float (Z.of_nat (length surface)) * 0.1 + base_weight)%float ∧
  char_count [21488%N; 25991%N] = 2%float ∧
  calculate_weight [21488%N; 25991%N] 1 = 1.2%float.
Proof. split_and!; reflexivity. Qed.

(** ** The dictionary of two keys, for any weights *)

Section two_keys.

Lemma two_key_scan (w_ab w_a : float) :
  ∃ c, __init__ (payload_weights w_ab w_a) = inr c ∧
    scan_order (str "ab") 0 (tw_to_zh c) =
      [(str "a", 1, (str "Y", w_a)); (str "ab", 2, (str "X", w_ab))] ∧
    scan_order (str "ab") 1 (tw_to_zh c) = [].
Proof.
  eexists. split; [vm_compute; reflexivity|].
  split; vm_compute; reflexivity.
Qed.

Lemma two_key_find_best_match (w_ab w_a : float) :
  ∃ c, __init__ (payload_weights w_ab w_a) = inr c ∧
    find_best_match (str "ab") 0 (tw_to_zh c) = two_key_choice w_ab w_a ∧
    find_best_match (str "ab") 1 (tw_to_zh c) = (None, None, 0).
Proof.
  destruct (two_key_scan w_ab w_a) as (c & Hinit & Hscan0 & Hscan1).
  exists c. split; [done|].
  unfold find_best_match. rewrite !search_scan_order, Hscan0, Hscan1.
  split; [|done]. cbn [foldl]. rewrite !step_unfold.
  unfold two_key_choice, score. cbn [fst snd best_weight no_best].
  destruct (neg_infinity <? calculate_weight (str "a") w_a)%float;
    cbn [chosen best_weight score fst snd].
  - unfold score. cbn [fst snd].
    by destruct (calculate_weight (str "a") w_a <? calculate_weight (str "ab") w_ab)%float.
  - change (best_weight no_best) with neg_infinity.
    by destruct (neg_infinity <? calculate_weight (str "ab") w_ab)%float.
Qed.

Lemma convert_loop_S fuel text dictionary pos result :
  convert_loop (S fuel) text dictionary pos result =
    if decide (pos < length text) then
      match loop_body text dictionary pos result with
      | inl err => Some (inl err)
      | inr (pos', result') => convert_loop fuel text dictionary pos' result'
      end
    else Some (inr result).
Proof. reflexivity. Qed.

Lemma two_key_convert (w_ab w_a : float) (fuel : nat) :
  2 < fuel →
  ∃ c, __init__ (payload_weights w_ab w_a) = inr c ∧
    convert fuel c (str "ab") (str "t2c") = Some (inr (two_key_output w_ab w_a)).
Proof.
  intros Hfuel.
  destruct (two_key_find_best_match w_ab w_a) as (c & Hinit & Hfind0 & Hfind1).
  exists c. split; [done|]. apply (convert_mono 3); [|lia].
  assert (∀ fuel' r, convert_loop (S fuel') (str "ab") (tw_to_zh c) 2 r
                     = Some (inr r)) as Hend.
  { intros fuel' r. rewrite convert_loop_S. by rewrite decide_False by (simpl; lia). }
  assert (∀ r, convert_loop 2 (str "ab") (tw_to_zh c) 1 r
               = Some (inr (r ++ [Some (str "b")]))) as Hb.
  { intros r. rewrite convert_loop_S, decide_True by (simpl; lia).
    unfold loop_body. rewrite Hfind1.
    change (truthy None) with false. cbv iota.
    change (str "ab" !! 1) with (Some 98%N). cbv iota.
    apply (Hend 0). }
  assert (truthy (Some (str "ab")) = true) as Hab by reflexivity.
  assert (truthy (Some (str "a")) = true) as Ha by reflexivity.
  unfold convert.
  replace (select_dictionary c (str "t2c")) with (inr (tw_to_zh c) : exn + index)
    by reflexivity.
  cbv beta iota.
  rewrite convert_loop_S, decide_True by (simpl; lia).
  unfold loop_body. rewrite Hfind0.
  unfold two_key_output, two_key_choice.
  destruct (neg_infinity <? calculate_weight (str "a") w_a)%float;
    [destruct (calculate_weight (str "a") w_a <? calculate_weight (str "ab") w_ab)%float
    |destruct (neg_infinity <? calculate_weight (str "ab") w_ab)%float];
    cbv beta iota.
  - rewrite Hab. cbv iota. by rewrite (Hend 1).
  - rewrite Ha. cbv iota. by rewrite Hb.
  - rewrite Hab. cbv iota. by rewrite (Hend 1).
  - change (truthy None) with false. cbv iota.
    change (str "ab" !! 0) with (Some 97%N). cbv iota. by rewrite Hb.
Qed.

End two_keys.

(** ** Selection among candidates *)

(** C1: with the dictionary {"ab": [("X", 1.0)], "a": [("Y", 5.0)]}, both
    "a" and "ab" are candidates at position 0 of "ab", with scores 5.1 and
    1.2; "a" is met first and "ab" does not replace it because 1.2 is not
    greater than 5.1, so the one-character match is selected, nothing matches
    at position 1, and the forward conversion of "ab" is "Yb". The selection
    follows the comparison of the two scores: with the same two keys and any
    weights, "a" is kept when its score is above negative infinity and the
    score of "ab" is not greater, giving "Yb", and "ab" is selected when its
    score is greater, giving "X". *)
Theorem C1_weight_overrides_length (fuel : nat) (Hfuel : 2 < fuel) :
  (∃ c, __init__ payload_override = inr c ∧
    tw_to_zh c !! str "ab" = Some [(str "X", 1%float)] ∧
    tw_to_zh c !! str "a" = Some [(str "Y", 5%float)] ∧
    tw_to_zh c !! str "b" = None ∧
    calculate_weight (str "ab") 1 = 1.2%float ∧
    calculate_weight (str "a") 5 = 5.1%float ∧
    (1.2 <? 5.1)%float = true ∧
    scan_order (str "ab") 0 (tw_to_zh c) =
      [(str "a", 1, (str "Y", 5%float)); (str "ab", 2, (str "X", 1%float))] ∧
    search (str "ab") 0 (tw_to_zh c) =
      foldl step no_best (scan_order (str "ab") 0 (tw_to_zh c)) ∧
    step no_best (str "a", 1, (str "Y", 5%float)) =
      Best (Some (str "a")) (Some (str "Y")) 5.1%float 1 ∧
    (5.1 <? calculate_weight (str "ab") 1)%float = false ∧
    step (Best (Some (str "a")) (Some (str "Y")) 5.1%float 1)
         (str "ab", 2, (str "X", 1%float)) =
      Best (Some (str "a")) (Some (str "Y")) 5.1%float 1 ∧
    find_best_match (str "ab") 0 (tw_to_zh c) = (Some (str "a"), Some (str "Y"), 1) ∧
    find_best_match (str "ab") 1 (tw_to_zh c) = (None, None, 0) ∧
    convert fuel c (str "ab") (str "t2c") = Some (inr (str "Yb"))) ∧
  payload_override = payload_weights 1 5 ∧
  ∀ w_ab w_a : float,
    let s_ab := calculate_weight (str "ab") w_ab in
    let s_a := calculate_weight (str "a") w_a in
    ∃ c, __init__ (payload_weights w_ab w_a) = inr c ∧
      find_best_match (str "ab") 0 (tw_to_zh c) = two_key_choice w_ab w_a ∧
      (flt neg_infinity s_a → ¬ flt s_a s_ab →
         find_best_match (str "ab") 0 (tw_to_zh c)
           = (Some (str "a"), Some (str "Y"), 1) ∧
         convert fuel c (str "ab") (str "t2c") = Some (inr (str "Yb"))) ∧
      (flt neg_infinity s_a → flt s_a s_ab →
         find_best_match (str "ab") 0 (tw_to_zh c)
           = (Some (str "ab"), Some (str "X"), 2) ∧
         convert fuel c (str "ab") (str "t2c") = Some (inr (str "X"))).
Proof.
  split_and!.
  - eexists. split; [vm_compute; reflexivity|].
    split_and!; [vm_compute; reflexivity..|].
    apply (convert_mono 3); [vm_compute; reflexivity|lia].
  - reflexivity.
  - intros w_ab w_a s_ab s_a.
    destruct (two_key_find_best_match w_ab w_a) as (c & Hinit & Hfind & _).
    destruct (two_key_convert w_ab w_a fuel Hfuel) as (c' & Hinit' & Hconv).
    assert (c' = c) as -> by congruence.
    exists c. split_and!; [done..| |].
    + intros Ha Hab. rewrite Hfind, Hconv.
      unfold two_key_output, two_key_choice. fold s_a s_ab.
      unfold flt in Ha, Hab. rewrite Ha.
      by destruct (s_a <? s_ab)%float.
    + intros Ha Hab. rewrite Hfind, Hconv.
      unfold two_key_output, two_key_choice. fold s_a s_ab.
      unfold flt in Ha, Hab. by rewrite Ha, Hab.
Qed.

Lemma C1_weight_overrides_length_witness :
  ∃ c, __init__ payload_override = inr c ∧
       convert 3 c (str "ab") (str "t2c") = Some (inr (str "Yb")).
Proof.
  destruct (C1_weight_overrides_length 3) as [(c & Hinit & H) _]; [lia|].
  exists c. split; [exact Hinit|]. apply H.
Defined.

(** C2: the candidates met at a position are those of [scan_order]
    (ascending substring length, then the order of the list stored under the
    substring); a candidate replaces the current best only when its score is
    strictly greater, so one whose score equals the best's leaves the best as
    it is; the candidate returned has a score no other candidate exceeds and
    is the first in scan order among those with an equal score. With the
    dictionary {"a": [("Y1", 0.0), ("Y2", 0.0)]}, converting "a" gives "Y1". *)
Theorem C2_first_seen_tie_break (text : pystr) (pos : nat) (dictionary : index)
    (fuel : nat) (Hfuel : 1 < fuel) :
  let cs := scan_order text pos dictionary in
  search text pos dictionary = foldl step no_best cs ∧
  (∀ b c, step b c = if (best_weight b <? score c)%float then chosen c else b) ∧
  (∀ b c, (score c =? best_weight b)%float = true → step b c = b) ∧
  ((find_best_match text pos dictionary = (None, None, 0) ∧
    ∀ c, c ∈ cs → ¬ flt neg_infinity (score c)) ∨
   (∃ i c, cs !! i = Some c ∧
      find_best_match text pos dictionary = (Some c.1.1, Some c.2.1, c.1.2) ∧
      (∀ j c', cs !! j = Some c' → ¬ flt (score c) (score c')) ∧
      (∀ j c', cs !! j = Some c' → (score c' =? score c)%float = true → i ≤ j))) ∧
  ∃ conv, __init__ payload_tie = inr conv ∧
    tw_to_zh conv !! str "a" = Some [(str "Y1", 0%float); (str "Y2", 0%float)] ∧
    (calculate_weight (str "a") 0 =? calculate_weight (str "a") 0)%float = true ∧
    find_best_match (str "a") 0 (tw_to_zh conv) = (Some (str "a"), Some (str "Y1"), 1) ∧
    convert fuel conv (str "a") (str "t2c") = Some (inr (str "Y1")).
Proof.
  intros cs. split_and!.
  - apply search_scan_order.
  - apply step_unfold.
  - intros b c Heq. rewrite step_unfold.
    apply feq_order in Heq as (_ & Hnlt & _). unfold flt in Hnlt.
    by destruct (best_weight b <? score c)%float.
  - unfold find_best_match.
    destruct (search_first_max text pos dictionary)
      as [[-> Hnone]|(i & c & Hi & -> & Hinf & Hmax & Hfirst)]; [by left|].
    right. exists i, c. split_and!; [done..| |].
    + intros j c' Hj. by eapply Hmax, list_elem_of_lookup_2.
    + intros j c' Hj Heq. destruct (decide (i ≤ j)) as [|Hji]; [done|].
      apply feq_order in Heq as (_ & _ & _ & Hle).
      destruct (Hfirst j c'); [lia|done..].
  - eexists. split; [vm_compute; reflexivity|].
    split_and!; [vm_compute; reflexivity..|].
    apply (convert_mono 2); [vm_compute; reflexivity|lia].
Qed.

Lemma C2_first_seen_tie_break_witness :
  ∃ conv, __init__ payload_tie = inr conv ∧
          convert 2 conv (str "a") (str "t2c") = Some (inr (str "Y1")).
Proof.
  destruct (C2_first_seen_tie_break (str "a") 0 ∅ 2)
    as (_ & _ & _ & _ & conv & Hinit & _ & _ & _ & Hconv); [lia|].
  exists conv. split; [exact Hinit|exact Hconv].
Defined.

(** ** Termination and totality of [convert] *)

(** C3, counterexample: with an entry whose replacement is the empty
    string, converting "a" appends one piece, the empty string, and returns
    the empty string, so the output has fewer characters than pieces were
    appended. *)
Lemma C3_counterexample :
  ∃ c pieces out,
    __init__ payload_erase = inr c ∧
    convert_loop 2 (str "a") (tw_to_zh c) 0 [] = Some (inr pieces) ∧
    convert 2 c (str "a") (str "t2c") = Some (inr out) ∧
    length out < length pieces.
Proof.
  eexists _, [Some []], []. split; [vm_compute; reflexivity|].
  split_and!; [vm_compute; reflexivity..|simpl; lia].
Qed.

(** C3, amended: for every text and either valid mode, each iteration of the
    loop moves [pos] forward by at least one, and with more fuel than the text
    has characters [convert] returns the concatenation of the appended
    pieces. When no replacement stored in the selected index is empty, the
    character count of the result is at least the number of pieces. *)
Theorem C3_convert_terminates (fuel : nat) (self : Converter) (text mode : pystr)
    (Hmode : mode = str "t2c" ∨ mode = str "c2t")
    (Hfuel : length text < fuel) :
  ∃ dictionary,
    select_dictionary self mode = inr dictionary ∧
    (∀ pos result, pos < length text →
       ∃ pos' result', loop_body text dictionary pos result = inr (pos', result') ∧
                       pos + 1 ≤ pos' ≤ length text ∧
                       length result' = length result + 1) ∧
    ∃ pieces,
      convert_loop fuel text dictionary 0 [] = Some (inr (Some <$> pieces)) ∧
      convert fuel self text mode = Some (inr (concat pieces)) ∧
      ((∀ k cands r w, dictionary !! k = Some cands → (r, w) ∈ cands → r ≠ []) →
       length pieces ≤ length (concat pieces)).
Proof.
  destruct (select_dictionary_valid self mode Hmode) as [dictionary Hsel].
  exists dictionary. split_and!; [done| |].
  - intros pos result Hpos.
    destruct (loop_body_ok text dictionary pos result Hpos)
      as (pos' & piece & Hbody & Hpos' & _).
    exists pos', (result ++ [Some piece]).
    rewrite length_app. simpl. done.
  - destruct (convert_ok fuel self text mode dictionary Hsel Hfuel)
      as (pieces & Hloop & Hconv & Hall).
    exists pieces. split_and!; [done..|].
    intros Hne. apply length_concat_ge.
    eapply Forall_impl; [exact Hall|]. simpl.
    intros piece [[ch ->]|(k & cands & w & Hk & Hin)]; [done|by eapply Hne].
Qed.

Lemma C3_convert_terminates_witness :
  ∃ c, __init__ payload_override = inr c ∧
    ∃ pieces, convert 3 c (str "ab") (str "t2c") = Some (inr (concat pieces)).
Proof.
  eexists. split; [vm_compute; reflexivity|].
  lazymatch goal with
  | |- ∃ pieces, convert 3 ?c _ _ = _ =>
    destruct (C3_convert_terminates 3 c (str "ab") (str "t2c"))
      as (d & _ & _ & pieces & _ & Hconv & _); [by left|simpl; lia|]
  end.
  exists pieces. exact Hconv.
Defined.

(** C4: a mode other than 't2c' and 'c2t' makes [convert] raise [ValueError],
    whatever the text and with no fuel at all, so before any iteration of the
    loop, and no string is returned; with one of the two modes and more fuel
    than the text has characters [convert] returns a string. *)
Theorem C4_unsupported_direction (fuel : nat) (self : Converter) (text mode : pystr) :
  (mode ≠ str "t2c" → mode ≠ str "c2t" →
     convert fuel self text mode = Some (inl (ValueError mode)) ∧
     convert 0 self text mode = Some (inl (ValueError mode))) ∧
  (mode = str "t2c" ∨ mode = str "c2t" → length text < fuel →
     ∃ out, convert fuel self text mode = Some (inr out)).
Proof.
  split.
  - intros Ht2c Hc2t. unfold convert, select_dictionary.
    by rewrite !decide_False by done.
  - intros Hmode Hfuel.
    destruct (select_dictionary_valid self mode Hmode) as [d Hsel].
    destruct (convert_ok fuel self text mode d Hsel Hfuel)
      as (pieces & _ & Hconv & _).
    by eauto.
Qed.

Lemma C4_unsupported_direction_witness :
  ∃ c, __init__ payload_override = inr c ∧
    convert 3 c (str "ab") (str "zh2tw") = Some (inl (ValueError (str "zh2tw"))) ∧
    convert 0 c (str "ab") (str "zh2tw") = Some (inl (ValueError (str "zh2tw"))) ∧
    (∃ out, convert 3 c (str "ab") (str "t2c") = Some (inr out)) ∧
    (∃ out, convert 3 c (str "ab") (str "c2t") = Some (inr out)).
Proof.
  eexists. split; [vm_compute; reflexivity|].
  lazymatch goal with
  | |- convert 3 ?c _ _ = _ ∧ _ =>
    destruct (C4_unsupported_direction 3 c (str "ab") (str "zh2tw")) as [Hbad _];
    destruct (C4_unsupported_direction 3 c (str "ab") (str "t2c")) as [_ Ht2c];
    destruct (C4_unsupported_direction 3 c (str "ab") (str "c2t")) as [_ Hc2t]
  end.
  destruct Hbad as [H3 H0]; [discriminate..|].
  split_and!; [exact H3|exact H0| |].
  - apply Ht2c; [by left|simpl; lia].
  - apply Hc2t; [by right|simpl; lia].
Defined.

(** ** Building the indexes *)

(** C5: when some entry of the list lacks '台文' or '華文', [__init__] raises
    [KeyError] for one of these two keys; no converter, hence no index, is
    returned, whatever entries came before the defective one. *)
Theorem C5_malformed_entry (data : payload) (es : list entry) (e : entry)
    (Hes : p_entries data = Some es)
    (Hin : e ∈ es)
    (Hmiss : e_tw e = None ∨ e_cn e = None) :
  (∃ key, __init__ data = inl (KeyError key) ∧ (key = F_tw ∨ key = F_cn)) ∧
  ∀ c, __init__ data ≠ inr c.
Proof.
  destruct (add_entries_fails (∅, ∅) es e Hin Hmiss) as (key & Hfail & Hkey).
  assert (__init__ data = inl (KeyError key)) as Hinit.
  { unfold __init__. rewrite Hes. simpl. by rewrite Hfail. }
  split; [by eauto|]. intros c. by rewrite Hinit.
Qed.

Lemma C5_malformed_entry_witness :
  (∃ key, __init__ payload_malformed = inl (KeyError key) ∧ (key = F_tw ∨ key = F_cn)) ∧
  ∀ c, __init__ payload_malformed ≠ inr c.
Proof.
  apply (C5_malformed_entry payload_malformed
           [entry_of "a" "X" None; Entry (Some (str "b")) None (Some 1%float)]
           (Entry (Some (str "b")) None (Some 1%float))).
  - reflexivity.
  - apply elem_of_cons. right. apply elem_of_cons. left. reflexivity.
  - right. reflexivity.
Defined.

(** C7: after a successful [__init__], every entry has both text fields; the
    forward index holds, under the entry's source form, a list containing its
    target form paired with its weight, 0.0 when the weight is absent, and
    the reverse index likewise with the two forms exchanged; every list
    stored in either index is non-empty. *)
Theorem C7_index_contents (data : payload) (c : Converter)
    (Hinit : __init__ data = inr c) :
  entries c = default [] (p_entries data) ∧
  (∀ e, e ∈ entries c →
     ∃ tw cn fwd bwd,
       e_tw e = Some tw ∧ e_cn e = Some cn ∧
       tw_to_zh c !! tw = Some fwd ∧ (cn, default 0%float (e_weight e)) ∈ fwd ∧
       zh_to_tw c !! cn = Some bwd ∧ (tw, default 0%float (e_weight e)) ∈ bwd) ∧
  (∀ k cands, tw_to_zh c !! k = Some cands ∨ zh_to_tw c !! k = Some cands →
     cands ≠ []).
Proof.
  assert (entries c = default [] (p_entries data)) as Hentries.
  { unfold __init__ in Hinit.
    destruct (add_entries (∅, ∅) (default [] (p_entries data))) as [|[??]];
      [done|]. by simplify_eq. }
  split_and!; [done| |].
  - intros e He.
    assert (is_Some (e_tw e) ∧ is_Some (e_cn e)) as [[tw Htw] [cn Hcn]].
    { unfold __init__ in Hinit.
      destruct (add_entries (∅, ∅) (default [] (p_entries data)))
        as [|[t2z z2t]] eqn:Hadd; [done|].
      eapply add_entries_fields; [exact Hadd|]. by rewrite <- Hentries. }
    destruct (init_lookup data c tw Hinit) as [Hfwd _].
    destruct (init_lookup data c cn Hinit) as [_ Hbwd].
    assert ((cn, default 0%float (e_weight e)) ∈ cands_for e_tw e_cn tw (entries c))
      as Hf by (apply elem_of_cands_for; by eauto).
    assert ((tw, default 0%float (e_weight e)) ∈ cands_for e_cn e_tw cn (entries c))
      as Hb by (apply elem_of_cands_for; by eauto).
    exists tw, cn, (cands_for e_tw e_cn tw (entries c)),
      (cands_for e_cn e_tw cn (entries c)).
    rewrite Hfwd, Hbwd. split_and!; try done.
    + destruct (cands_for e_tw e_cn tw (entries c)); [by apply elem_of_nil in Hf|done].
    + destruct (cands_for e_cn e_tw cn (entries c)); [by apply elem_of_nil in Hb|done].
  - intros k cands Hk.
    destruct (init_lookup data c k Hinit) as [Hfwd Hbwd].
    rewrite Hfwd, Hbwd in Hk.
    destruct Hk as [Hk|Hk]; apply extend_None_Some in Hk as [-> Hne]; exact Hne.
Qed.

Lemma C7_index_contents_witness :
  ∃ c, __init__ payload_erase = inr c ∧
    tw_to_zh c !! str "a" = Some [(str "", 0%float)] ∧
    ∀ k cands, tw_to_zh c !! k = Some cands ∨ zh_to_tw c !! k = Some cands →
               cands ≠ [].
Proof.
  eexists. split; [vm_compute; reflexivity|].
  split; [vm_compute; reflexivity|].
  lazymatch goal with
  | |- ∀ k cands, tw_to_zh ?c !! _ = _ ∨ _ → _ =>
    apply (C7_index_contents payload_erase c)
  end.
  vm_compute. reflexivity.
Defined.

(** C8: a converter built from a payload without entries (the key absent or
    the list empty) returns, in either valid mode and with more fuel than the
    text has characters, the text itself. *)
Theorem C8_empty_dictionary_identity (fuel : nat) (version : option Z)
    (es : option (list entry)) (text mode : pystr)
    (Hes : es = None ∨ es = Some [])
    (Hmode : mode = str "t2c" ∨ mode = str "c2t")
    (Hfuel : length text < fuel) :
  ∃ c, __init__ (Payload version es) = inr c ∧
       tw_to_zh c = ∅ ∧ zh_to_tw c = ∅ ∧
       convert fuel c text mode = Some (inr text).
Proof.
  exists (MkConverter (default 0%Z version) [] ∅ ∅).
  split; [by destruct Hes as [-> | ->]|]. split_and!; [done..|].
  unfold convert, select_dictionary.
  pose proof (convert_loop_empty fuel text 0 []) as Hloop. simpl in Hloop.
  destruct Hmode as [-> | ->]; simpl;
    rewrite Hloop by lia; simpl; by rewrite join_Some, concat_singletons.
Qed.

Lemma C8_empty_dictionary_identity_witness :
  ∃ c, __init__ (Payload None (Some [])) = inr c ∧
       convert 4 c (str "abc") (str "c2t") = Some (inr (str "abc")).
Proof.
  destruct (C8_empty_dictionary_identity 4 None (Some []) (str "abc") (str "c2t"))
    as (c & Hinit & _ & _ & Hconv).
  - right. reflexivity.
  - right. reflexivity.
  - simpl. lia.
  - exists c. split; [exact Hinit|exact Hconv].
Defined.

(** ** Matches and passthrough *)

(** C9, counterexample: a key is present at position 0 of "a", its only
    candidate has weight negative infinity, and the character is passed
    through. *)
Lemma C9_counterexample :
  ∃ c, __init__ payload_neg_infinity = inr c ∧
    tw_to_zh c !! take 1 (drop 0 (str "a")) = Some [(str "X", neg_infinity)] ∧
    calculate_weight (str "a") neg_infinity = neg_infinity ∧
    find_best_match (str "a") 0 (tw_to_zh c) = (None, None, 0) ∧
    loop_body (str "a") (tw_to_zh c) 0 [] = inr (1, [Some (str "a")]) ∧
    convert 2 c (str "a") (str "t2c") = Some (inr (str "a")).
Proof.
  eexists. split; [vm_compute; reflexivity|].
  split_and!; vm_compute; reflexivity.
Qed.

(** C9, amended: when some substring starting at [pos] is a key of the index
    and one of its candidates has a score that compares greater than negative
    infinity, as every score that is an ordinary number does, negative ones
    included, [find_best_match] returns a key of the index starting at [pos]
    with one of its replacements, and the iteration of [convert] at [pos]
    appends that replacement and advances by the length of the key instead of
    passing the character through. *)
Theorem C9_match_over_passthrough (text : pystr) (pos : nat) (dictionary : index)
    (result : list (option pystr)) (len : nat) (cands : list (pystr * float))
    (r : pystr) (w : float)
    (Hlen : 1 ≤ len ≤ length text - pos)
    (Hkey : dictionary !! take len (drop pos text) = Some cands)
    (Hcand : (r, w) ∈ cands)
    (Hscore : flt neg_infinity (calculate_weight (take len (drop pos text)) w)) :
  ∃ sub rep n cands' w',
    find_best_match text pos dictionary = (Some sub, Some rep, n) ∧
    truthy (Some sub) = true ∧
    1 ≤ n ≤ length text - pos ∧
    sub = take n (drop pos text) ∧
    dictionary !! sub = Some cands' ∧ (rep, w') ∈ cands' ∧
    loop_body text dictionary pos result = inr (pos + n, result ++ [Some rep]).
Proof.
  destruct (find_best_match_cases text pos dictionary)
    as [[_ Hnone]|(c & Hc & Hfind & _)].
  - destruct (Hnone (take len (drop pos text), len, (r, w))); [|done].
    apply elem_of_scan_order. simpl. by eauto.
  - pose proof (truthy_chosen _ _ _ _ Hc) as Htrue.
    pose proof Hc as (Hn & Hsub & cands' & Hd & Hin)%elem_of_scan_order.
    exists c.1.1, c.2.1, c.1.2, cands', c.2.2.
    split_and!; try done; try lia.
    + by destruct c as [? [??]].
    + unfold loop_body. rewrite Hfind.
      change (truthy (Some c.1.1)) with (truthy (best_match (chosen c))).
      by rewrite (truthy_chosen _ _ _ _ Hc).
Qed.

Lemma C9_match_over_passthrough_witness :
  ∃ c, __init__ payload_negative = inr c ∧
    (calculate_weight (str "a") (-5) <? 0)%float = true ∧
    (calculate_weight (str "ab") (-7) <? 0)%float = true ∧
    ∃ sub rep n,
      find_best_match (str "ab") 0 (tw_to_zh c) = (Some sub, Some rep, n) ∧
      loop_body (str "ab") (tw_to_zh c) 0 [] = inr (0 + n, [] ++ [Some rep]).
Proof.
  eexists. split; [vm_compute; reflexivity|].
  split; [vm_compute; reflexivity|]. split; [vm_compute; reflexivity|].
  lazymatch goal with
  | |- ∃ sub rep n, find_best_match _ _ (tw_to_zh ?c) = _ ∧ _ =>
    destruct (C9_match_over_passthrough (str "ab") 0 (tw_to_zh c) [] 1
                [(str "X", (-5)%float)] (str "X") (-5)%float)
      as (sub & rep & n & cands' & w' & Hfind & _ & _ & _ & _ & _ & Hbody)
  end.
  - simpl. lia.
  - vm_compute. reflexivity.
  - apply elem_of_cons. left. reflexivity.
  - vm_compute. reflexivity.
  - exists sub, rep, n. split; [exact Hfind|exact Hbody].
Defined.

(** C10, counterexample: with an entry of empty source form and target form
    "X", the reverse conversion of "X" is the empty string; without the entry
    it is "X". *)
Lemma C10_counterexample :
  ∃ c c',
    __init__ payload_empty_source = inr c ∧
    __init__ (Payload None (Some [])) = inr c' ∧
    e_tw (entry_of "" "X" None) = Some [] ∧
    tw_to_zh c !! [] = Some [(str "X", 0%float)] ∧
    convert 2 c (str "X") (str "c2t") = Some (inr []) ∧
    convert 2 c' (str "X") (str "c2t") = Some (inr (str "X")).
Proof.
  eexists _, _. split; [vm_compute; reflexivity|].
  split; [vm_compute; reflexivity|].
  split_and!; vm_compute; reflexivity.
Qed.

(** C10, amended: an entry whose source form is the empty string is stored
    under the empty key of the forward index; no candidate met by the forward
    search has an empty substring, [find_best_match] never returns the empty
    match on the forward index, and every forward conversion gives the same
    result as with a payload from which the entry has been removed. *)
Theorem C10_empty_source_unmatched (version : option Z) (es1 es2 : list entry)
    (e : entry) (c : Converter)
    (Hsrc : e_tw e = Some [])
    (Hinit : __init__ (Payload version (Some (es1 ++ e :: es2))) = inr c) :
  (∃ cn cands, e_cn e = Some cn ∧ tw_to_zh c !! [] = Some cands ∧
               (cn, default 0%float (e_weight e)) ∈ cands) ∧
  (∀ text pos cand, cand ∈ scan_order text pos (tw_to_zh c) → cand.1.1 ≠ []) ∧
  (∀ text pos, (find_best_match text pos (tw_to_zh c)).1.1 ≠ Some []) ∧
  ∃ c', __init__ (Payload version (Some (es1 ++ es2))) = inr c' ∧
        ∀ fuel text,
          convert fuel c text (str "t2c") = convert fuel c' text (str "t2c").
Proof.
  assert (∀ text pos (d : index) cand, cand ∈ scan_order text pos d → cand.1.1 ≠ [])
    as Hnonempty.
  { intros text pos d cand Hcand Hnil.
    pose proof (scan_order_length _ _ _ _ Hcand) as Hlen.
    apply elem_of_scan_order in Hcand as (Hge & _). rewrite Hnil in Hlen.
    simpl in Hlen. lia. }
  pose proof Hinit as Hinit0. unfold __init__ in Hinit0. simpl in Hinit0.
  destruct (add_entries (∅, ∅) (es1 ++ e :: es2)) as [|[t2z z2t]] eqn:Hadd; [done|].
  injection Hinit0 as <-. cbn [tw_to_zh].
  assert (∀ e', e' ∈ es1 ++ e :: es2 → is_Some (e_tw e') ∧ is_Some (e_cn e'))
    as Hfields by (intros e'; by eapply add_entries_fields).
  split_and!.
  - assert (e ∈ es1 ++ e :: es2) as He
      by (apply elem_of_app; right; apply elem_of_cons; by left).
    destruct (Hfields e He) as [_ [cn Hcn]].
    destruct (add_entries_lookup _ _ _ [] Hadd) as [Hfwd _]. simpl in Hfwd.
    rewrite lookup_empty in Hfwd.
    assert ((cn, default 0%float (e_weight e)) ∈
              cands_for e_tw e_cn [] (es1 ++ e :: es2)) as Hin.
    { apply elem_of_cands_for. exists e. by split_and!. }
    exists cn, (cands_for e_tw e_cn [] (es1 ++ e :: es2)).
    split_and!; [done| |done]. rewrite Hfwd.
    destruct (cands_for e_tw e_cn [] (es1 ++ e :: es2));
      [by apply elem_of_nil in Hin|done].
  - intros text pos cand. apply Hnonempty.
  - intros text pos Hempty.
    destruct (find_best_match_cases text pos t2z) as [[Hfind _]|(cand & Hcand & Hfind & _)];
      rewrite Hfind in Hempty; simpl in Hempty; [done|].
    apply (Hnonempty _ _ _ _ Hcand). congruence.
  - destruct (add_entries_succeeds (∅, ∅) (es1 ++ es2)) as [[t2z' z2t'] Hadd'].
    { intros e' [He'|He']%elem_of_app; apply Hfields, elem_of_app;
        [by left|right; apply elem_of_cons; by right]. }
    exists (MkConverter (default 0%Z version) (es1 ++ es2) t2z' z2t').
    split; [unfold __init__; simpl; by rewrite Hadd'|].
    intros fuel text. unfold convert, select_dictionary.
    rewrite decide_True by done. simpl.
    rewrite (convert_loop_ext fuel text t2z t2z'); [done|].
    intros k Hk.
    destruct (add_entries_lookup _ _ _ k Hadd) as [Hfwd _].
    destruct (add_entries_lookup _ _ _ k Hadd') as [Hfwd' _].
    simpl in Hfwd, Hfwd'. rewrite Hfwd, Hfwd'.
    rewrite cands_for_remove; [done|]. rewrite Hsrc. congruence.
Qed.

Lemma C10_empty_source_unmatched_witness :
  ∃ c c',
    __init__ payload_empty_source = inr c ∧
    __init__ (Payload None (Some [])) = inr c' ∧
    ∀ fuel text, convert fuel c text (str "t2c") = convert fuel c' text (str "t2c").
Proof.
  eexists. 
  lazymatch goal with
  | |- ∃ c', __init__ _ = inr ?c ∧ _ =>
    assert (__init__ payload_empty_source = inr c) as Hinit by (vm_compute; reflexivity);
    destruct (C10_empty_source_unmatched None [] [] (entry_of "" "X" None) c)
      as (_ & _ & _ & c' & Hinit' & Hsame); [reflexivity|exact Hinit|]
  end.
  exists c'. split_and!; [exact Hinit|exact Hinit'|exact Hsame].
Defined.

(** ** Further properties of the indexes *)

Section more_indexes.

(** When every entry has its two text fields, the candidates under [k] are
    the entries keyed by [k], in order, each read as (other form, weight). *)
Lemma cands_for_filter key val k es :
  (∀ e, e ∈ es → is_Some (key e) ∧ is_Some (val e)) →
  cands_for key val k es =
    (λ e, (default [] (val e), default 0%float (e_weight e))) <$>
      filter (λ e, key e = Some k) es.
Proof.
  induction es as [|e es IH]; intros Hes; [done|].
  unfold cands_for in *. rewrite bind_cons, filter_cons.
  destruct (Hes e) as [[k' Hk'] [v Hv]]; [by left|].
  rewrite Hk', Hv, IH by (intros e' He'; apply Hes; by right).
  case_decide as Hk; subst.
  - rewrite decide_True by done. rewrite fmap_cons, Hv. done.
  - rewrite decide_False by congruence. done.
Qed.

Lemma init_fields data c e :
  __init__ data = inr c → e ∈ entries c → is_Some (e_tw e) ∧ is_Some (e_cn e).
Proof.
  unfold __init__. intros Hinit He.
  destruct (add_entries (∅, ∅) (default [] (p_entries data)))
    as [|[t2z z2t]] eqn:Hadd; [done|].
  simplify_eq. simpl in He. by eapply add_entries_fields.
Qed.

Lemma extend_None l :
  extend None l = match l with [] => None | _ => Some l end.
Proof. by destruct l. Qed.

Lemma add_entries_first_defect st good e rest :
  (∀ e', e' ∈ good → is_Some (e_tw e') ∧ is_Some (e_cn e')) →
  (e_tw e = None → add_entries st (good ++ e :: rest) = inl (KeyError F_tw)) ∧
  (is_Some (e_tw e) → e_cn e = None →
     add_entries st (good ++ e :: rest) = inl (KeyError F_cn)).
Proof.
  revert st. induction good as [|e0 good IH]; intros st Hgood; simpl.
  - unfold add_entry. split.
    + by intros ->.
    + by intros [tw ->] ->.
  - destruct (Hgood e0) as [[tw0 Htw0] [cn0 Hcn0]]; [by left|].
    unfold add_entry at 1 2. rewrite Htw0, Hcn0.
    apply IH. intros e' He'. apply Hgood. by right.
Qed.

End more_indexes.

(** X1: after a successful [__init__], the forward index has a value under
    [k] exactly when some entry has source form [k], and that value is the
    list of (target form, weight or 0.0) of the entries with source form [k],
    in the order of the entry list, repeated entries repeated; the reverse
    index likewise with the two forms exchanged. *)
Theorem X1_index_exact (data : payload) (c : Converter) (k : pystr)
    (Hinit : __init__ data = inr c) :
  let fwd := (λ e, (default [] (e_cn e), default 0%float (e_weight e))) <$>
               filter (λ e, e_tw e = Some k) (entries c) in
  let bwd := (λ e, (default [] (e_tw e), default 0%float (e_weight e))) <$>
               filter (λ e, e_cn e = Some k) (entries c) in
  tw_to_zh c !! k = match fwd with [] => None | _ => Some fwd end ∧
  zh_to_tw c !! k = match bwd with [] => None | _ => Some bwd end.
Proof.
  intros fwd bwd.
  destruct (init_lookup data c k Hinit) as [Hfwd Hbwd].
  rewrite Hfwd, Hbwd, !extend_None.
  rewrite !cands_for_filter; [done|intros e He..];
    destruct (init_fields data c e Hinit He); done.
Qed.

Lemma X1_index_exact_witness :
  ∃ c, __init__ payload_tie = inr c ∧
       tw_to_zh c !! str "a" = Some [(str "Y1", 0%float); (str "Y2", 0%float)] ∧
       tw_to_zh c !! str "b" = None.
Proof.
  eexists. split; [vm_compute; reflexivity|].
  lazymatch goal with
  | |- tw_to_zh ?c !! _ = _ ∧ _ =>
    assert (__init__ payload_tie = inr c) as Hinit by (vm_compute; reflexivity);
    pose proof (X1_index_exact payload_tie c (str "a") Hinit) as [Ha _];
    pose proof (X1_index_exact payload_tie c (str "b") Hinit) as [Hb _]
  end.
  split; [rewrite Ha|rewrite Hb]; vm_compute; reflexivity.
Defined.

(** X2: after a successful [__init__] the two indexes mirror each other: the
    forward index lists (cn, w) under tw exactly when the reverse index lists
    (tw, w) under cn. *)
Theorem X2_index_mirror (data : payload) (c : Converter) (tw cn : pystr) (w : float)
    (Hinit : __init__ data = inr c) :
  (∃ fwd, tw_to_zh c !! tw = Some fwd ∧ (cn, w) ∈ fwd) ↔
  (∃ bwd, zh_to_tw c !! cn = Some bwd ∧ (tw, w) ∈ bwd).
Proof.
  destruct (init_lookup data c tw Hinit) as [Hfwd _].
  destruct (init_lookup data c cn Hinit) as [_ Hbwd].
  rewrite Hfwd, Hbwd, !extend_None.
  assert ((cn, w) ∈ cands_for e_tw e_cn tw (entries c) ↔
          (tw, w) ∈ cands_for e_cn e_tw cn (entries c)) as Hiff.
  { rewrite !elem_of_cands_for. split; intros (e & ? & ? & ? & ?); by exists e. }
  split.
  - intros (fwd & Hl & Hin).
    destruct (cands_for e_tw e_cn tw (entries c)) as [|x l] eqn:Hc; [done|].
    simplify_eq. apply Hiff in Hin. eexists. split; [|exact Hin].
    by destruct (cands_for e_cn e_tw cn (entries c)); [apply elem_of_nil in Hin|].
  - intros (bwd & Hl & Hin).
    destruct (cands_for e_cn e_tw cn (entries c)) as [|x l] eqn:Hc; [done|].
    simplify_eq. apply Hiff in Hin. eexists. split; [|exact Hin].
    by destruct (cands_for e_tw e_cn tw (entries c)); [apply elem_of_nil in Hin|].
Qed.

Lemma X2_index_mirror_witness :
  ∃ c, __init__ payload_override = inr c ∧
       ∃ bwd, zh_to_tw c !! str "Y" = Some bwd ∧ (str "a", 5%float) ∈ bwd.
Proof.
  eexists. split; [vm_compute; reflexivity|].
  lazymatch goal with
  | |- ∃ bwd, zh_to_tw ?c !! _ = _ ∧ _ =>
    apply (X2_index_mirror payload_override c (str "a") (str "Y") 5%float)
  end.
  - vm_compute. reflexivity.
  - eexists. split; [vm_compute; reflexivity|].
    apply elem_of_cons. left. reflexivity.
Defined.

(** X3: [__init__] succeeds exactly when every entry has both '台文' and
    '華文'; the converter then keeps the entry list and the version of the
    payload, 0 when the payload has no 'dict_version' and the empty list
    when it has no 'entries'. *)
Theorem X3_init_succeeds_iff (data : payload) :
  ((∀ e, e ∈ default [] (p_entries data) → is_Some (e_tw e) ∧ is_Some (e_cn e)) ↔
   ∃ c, __init__ data = inr c) ∧
  (∀ c, __init__ data = inr c →
     entries c = default [] (p_entries data) ∧
     dict_version c = default 0%Z (p_dict_version data)).
Proof.
  split; [split|].
  - intros Hes.
    destruct (add_entries_succeeds (∅, ∅) (default [] (p_entries data)) Hes)
      as [[t2z z2t] Hadd].
    unfold __init__. rewrite Hadd. by eexists.
  - intros [c Hinit] e He. unfold __init__ in Hinit.
    destruct (add_entries (∅, ∅) (default [] (p_entries data)))
      as [|[t2z z2t]] eqn:Hadd; [done|].
    by eapply add_entries_fields.
  - intros c Hinit. unfold __init__ in Hinit.
    destruct (add_entries (∅, ∅) (default [] (p_entries data)))
      as [|[t2z z2t]]; [done|]. by simplify_eq.
Qed.

Lemma X3_init_succeeds_iff_witness :
  (∃ c, __init__ payload_tie = inr c) ∧ ¬ (∃ c, __init__ payload_malformed = inr c).
Proof.
  split.
  - apply (X3_init_succeeds_iff payload_tie).
    intros e He. simpl in He.
    apply elem_of_cons in He as [->|He]; [split; eexists; reflexivity|].
    apply elem_of_cons in He as [->|He]; [split; eexists; reflexivity|].
    apply elem_of_nil in He. destruct He.
  - intros Hc. destruct (X3_init_succeeds_iff payload_malformed) as [[_ Hback] _].
    destruct (Hback Hc (Entry (Some (str "b")) None (Some 1%float)))
      as [_ [cn Hcn]].
    + apply elem_of_cons. right. apply elem_of_cons. left. reflexivity.
    + discriminate Hcn.
Defined.

(** X4: the exception of a failing [__init__] is decided by the first entry
    that lacks a text field: [KeyError] for '台文' when that entry has no
    '台文', whether or not it has '華文', and for '華文' when it has '台文'
    only; the entries after it are not looked at. *)
Theorem X4_first_defect (data : payload) (good rest : list entry) (e : entry)
    (Hes : p_entries data = Some (good ++ e :: rest))
    (Hgood : ∀ e', e' ∈ good → is_Some (e_tw e') ∧ is_Some (e_cn e')) :
  (e_tw e = None → __init__ data = inl (KeyError F_tw)) ∧
  (is_Some (e_tw e) → e_cn e = None → __init__ data = inl (KeyError F_cn)).
Proof.
  unfold __init__. rewrite Hes. simpl.
  destruct (add_entries_first_defect (∅, ∅) good e rest Hgood) as [Htw Hcn].
  split.
  - intros He. by rewrite (Htw He).
  - intros He1 He2. by rewrite (Hcn He1 He2).
Qed.

Lemma X4_first_defect_witness :
  __init__ payload_malformed = inl (KeyError F_cn) ∧
  __init__ (Payload None (Some [Entry None None None; Entry None (Some []) None]))
    = inl (KeyError F_tw).
Proof.
  split.
  - apply (X4_first_defect payload_malformed [entry_of "a" "X" None]
             [] (Entry (Some (str "b")) None (Some 1%float))).
    + reflexivity.
    + intros e' He'. apply elem_of_cons in He' as [->|He'];
        [split; eexists; reflexivity|].
      apply elem_of_nil in He'. destruct He'.
    + eexists. reflexivity.
    + reflexivity.
  - apply (X4_first_defect _ [] [Entry None (Some []) None] (Entry None None None)).
    + reflexivity.
    + intros e' He'. apply elem_of_nil in He'. destruct He'.
    + reflexivity.
Defined.

(** ** Further properties of the candidate search *)

Section more_search.

(** A sum is above negative infinity only if its second operand is: adding
    NaN gives NaN, and adding negative infinity gives negative infinity or
    NaN. *)
Lemma flt_add_neg_infinity x w :
  flt neg_infinity (x + w)%float → flt neg_infinity w.
Proof.
  unfold flt. rewrite !FloatAxioms.ltb_spec, FloatAxioms.add_spec.
  change (Prim2SF neg_infinity) with (S754_infinity true).
  unfold SF64add, SFadd.
  destruct (Prim2SF x) as [sx|sx| |sx mx ex], (Prim2SF w) as [sw|sw| |sw mw ew];
    intros H; try reflexivity; try discriminate H;
    try destruct sx; try destruct sw; try reflexivity; try discriminate H.
Qed.

Lemma flt_neg_infinity_weight sub w :
  flt neg_infinity (calculate_weight sub w) →
  flt neg_infinity w ∧ w ≠ nan ∧ w ≠ neg_infinity.
Proof.
  intros H%flt_add_neg_infinity. split_and!; [done|intros ->..].
  - discriminate H.
  - by apply flt_irrefl in H.
Qed.


End more_search.





(** X7: when a candidate at [pos] has a score above negative infinity and
    strictly above the score of every candidate of another length or with
    another replacement, [find_best_match] returns its key, replacement and
    length, wherever it stands in the scan. *)
Theorem X7_strict_best_wins (text : pystr) (pos : nat) (dictionary : index)
    (len : nat) (cands : list (pystr * float)) (r : pystr) (w : float)
    (Hlen : 1 ≤ len ≤ length text - pos)
    (Hkey : dictionary !! take len (drop pos text) = Some cands)
    (Hcand : (r, w) ∈ cands)
    (Hscore : flt neg_infinity (calculate_weight (take len (drop pos text)) w))
    (Hbest : ∀ len' cands' r' w',
       1 ≤ len' ≤ length text - pos →
       dictionary !! take len' (drop pos text) = Some cands' →
       (r', w') ∈ cands' →
       (len', r') ≠ (len, r) →
       flt (calculate_weight (take len' (drop pos text)) w')
           (calculate_weight (take len (drop pos text)) w)) :
  find_best_match text pos dictionary = (Some (take len (drop pos text)), Some r, len).
Proof.
  set (c := (take len (drop pos text), len, (r, w))).
  assert (c ∈ scan_order text pos dictionary) as Hc
    by (apply elem_of_scan_order; simpl; by eauto).
  unfold find_best_match.
  destruct (search_first_max text pos dictionary)
    as [[_ Hnone]|(i & c0 & Hi & -> & _ & Hmax & _)].
  - by destruct (Hnone c Hc).
  - apply list_elem_of_lookup_2 in Hi.
    destruct (decide ((c0.1.2, c0.2.1) = (len, r))) as [Heq|Hne].
    + apply elem_of_scan_order in Hi as (_ & Hsub & _).
      simpl. rewrite Hsub. by simplify_eq.
    + destruct (Hmax c Hc).
      apply elem_of_scan_order in Hi as (Hn & Hsub & cands0 & Hd & Hin).
      unfold score at 1. rewrite Hsub.
      apply (Hbest c0.1.2 cands0 c0.2.1 c0.2.2); try done.
      * by rewrite <- Hsub.
      * by destruct c0 as [? [??]].
Qed.

Lemma X7_strict_best_wins_witness :
  find_best_match (str "ab") 0
    {[ str "a" := [(str "Y", 0%float)]; str "ab" := [(str "X", 0%float)] ]}
  = (Some (take 2 (drop 0 (str "ab"))), Some (str "X"), 2).
Proof.
  apply (X7_strict_best_wins _ _ _ 2 [(str "X", 0%float)] (str "X") 0%float).
  - simpl. lia.
  - vm_compute. reflexivity.
  - apply elem_of_cons. left. reflexivity.
  - vm_compute. reflexivity.
  - intros len' cands' r' w' Hlen' Hkey' Hin' Hne.
    assert (len' = 1 ∨ len' = 2) as [-> | ->] by (simpl in Hlen'; lia).
    + vm_compute in Hkey'. injection Hkey' as <-.
      apply elem_of_cons in Hin' as [Heq|Hin'];
        [injection Heq as -> ->; vm_compute; reflexivity|].
      apply elem_of_nil in Hin'. destruct Hin'.
    + vm_compute in Hkey'. injection Hkey' as <-.
      apply elem_of_cons in Hin' as [Heq|Hin'];
        [injection Heq as -> ->; destruct Hne; reflexivity|].
      apply elem_of_nil in Hin'. destruct Hin'.
Defined.

(** X8: the replacement [find_best_match] returns is stored under the
    returned key with a weight that compares greater than negative infinity:
    a candidate whose weight is NaN or negative infinity is never selected,
    whatever the length of its key. *)
Theorem X8_selected_weight (text : pystr) (pos : nat) (dictionary : index)
    (sub rep : pystr) (n : nat)
    (Hfind : find_best_match text pos dictionary = (Some sub, Some rep, n)) :
  ∃ cands w,
    dictionary !! sub = Some cands ∧ (rep, w) ∈ cands ∧
    flt neg_infinity (calculate_weight sub w) ∧
    flt neg_infinity w ∧ w ≠ nan ∧ w ≠ neg_infinity.
Proof.
  destruct (find_best_match_cases text pos dictionary)
    as [[Hnone _]|(c & Hc & Hfind' & Hinf)]; [congruence|].
  rewrite Hfind' in Hfind. injection Hfind as <- <- <-.
  apply elem_of_scan_order in Hc as (_ & _ & cands & Hd & Hin).
  exists cands, c.2.2. split_and!; [done|by destruct c as [? [??]]|done|..];
    by apply (flt_neg_infinity_weight c.1.1).
Qed.

Lemma X8_selected_weight_witness :
  ∃ cands w,
    ({[ str "a" := [(str "N", nan); (str "Y", (-5)%float)] ]} : index) !! str "a"
      = Some cands ∧
    (str "Y", w) ∈ cands ∧ w ≠ nan.
Proof.
  destruct (X8_selected_weight (str "ab") 0
              {[ str "a" := [(str "N", nan); (str "Y", (-5)%float)] ]}
              (str "a") (str "Y") 1)
    as (cands & w & Hd & Hin & _ & _ & Hnan & _).
  - vm_compute. reflexivity.
  - exists cands, w. split_and!; [exact Hd|exact Hin|exact Hnan].
Defined.

(** ** Further properties of the scan *)

Section more_scan.

(** One iteration consumes a non-empty piece of the text at [pos]. *)
Lemma loop_body_segment text dictionary pos result :
  pos < length text →
  ∃ n piece,
    loop_body text dictionary pos result = inr (pos + n, result ++ [Some piece]) ∧
    1 ≤ n ≤ length text - pos ∧
    segment_ok dictionary (take n (drop pos text), piece).
Proof.
  intros Hpos. unfold loop_body.
  destruct (find_best_match_cases text pos dictionary)
    as [[-> _]|(c & Hc & -> & _)]; simpl.
  - destruct (lookup_lt_is_Some_2 text pos Hpos) as [ch Hch]. rewrite Hch.
    exists 1, [ch]. rewrite (drop_S text ch pos Hch). simpl. rewrite take_0.
    split_and!; [done|lia..|]. split; [done|]. left. by exists ch.
  - pose proof (truthy_chosen _ _ _ _ Hc) as Htrue. simpl in Htrue.
    rewrite Htrue.
    pose proof (scan_order_length _ _ _ _ Hc) as Hlen.
    apply elem_of_scan_order in Hc as (Hn & Hsub & cands & Hd & Hin).
    exists c.1.2, c.2.1. rewrite <- Hsub. split_and!; [done|lia..|].
    split; simpl.
    + intros Hnil. rewrite Hnil in Hlen. simpl in Hlen. lia.
    + right. exists cands, c.2.2. by destruct c as [? [??]].
Qed.

Lemma convert_loop_segments fuel text dictionary pos acc :
  pos ≤ length text → length text - pos < fuel →
  ∃ segs : list (pystr * pystr),
    convert_loop fuel text dictionary pos (Some <$> acc) =
      Some (inr (Some <$> (acc ++ segs.*2))) ∧
    concat segs.*1 = drop pos text ∧
    Forall (segment_ok dictionary) segs.
Proof.
  revert pos acc. induction fuel as [|fuel IH]; intros pos acc Hpos Hfuel; [lia|].
  simpl. case_decide as Hlt.
  - destruct (loop_body_segment text dictionary pos (Some <$> acc) Hlt)
      as (n & piece & -> & Hn & Hseg).
    destruct (IH (pos + n) (acc ++ [piece])) as (segs & Hloop & Hcat & Hall);
      [lia..|].
    exists ((take n (drop pos text), piece) :: segs).
    rewrite fmap_app in Hloop. simpl in Hloop.
    rewrite Hloop, <- app_assoc. split_and!; [done| |by constructor].
    rewrite fmap_cons. simpl. rewrite Hcat, <- drop_drop. apply take_drop.
  - exists []. rewrite app_nil_r. split_and!; [done| |done].
    by rewrite drop_ge by lia.
Qed.

(** Indexes that agree on the non-empty substrings of the text give the same
    scan. *)
Lemma scan_order_local (text : pystr) (pos : nat) (d1 d2 : index) :
  (∀ i len, 1 ≤ len → i + len ≤ length text →
     d1 !! take len (drop i text) = d2 !! take len (drop i text)) →
  scan_order text pos d1 = scan_order text pos d2.
Proof.
  intros Hagree. unfold scan_order. apply Forall_bind_ext, Forall_forall.
  intros len Hlen%elem_of_seq. by rewrite Hagree by lia.
Qed.

Lemma convert_loop_local (fuel : nat) (text : pystr) (d1 d2 : index)
    (pos : nat) (result : list (option pystr)) :
  (∀ i len, 1 ≤ len → i + len ≤ length text →
     d1 !! take len (drop i text) = d2 !! take len (drop i text)) →
  convert_loop fuel text d1 pos result = convert_loop fuel text d2 pos result.
Proof.
  intros Hagree. revert pos result.
  induction fuel as [|fuel IH]; intros pos result; [done|].
  simpl. unfold loop_body, find_best_match.
  rewrite !search_scan_order, (scan_order_local _ _ d1 d2) by done.
  case_decide; [|done].
  destruct (truthy _); [by rewrite IH|].
  destruct (text !! pos); [by rewrite IH|done].
Qed.

(** A text that is a key none of whose shorter prefixes is a key. *)
Lemma find_best_match_whole_key (text : pystr) (dictionary : index)
    (cands : list (pystr * float)) :
  text ≠ [] →
  dictionary !! text = Some cands →
  (∀ len, 1 ≤ len < length text → dictionary !! take len text = None) →
  (∃ r w, (r, w) ∈ cands ∧ flt neg_infinity (calculate_weight text w)) →
  ∃ r w, (r, w) ∈ cands ∧
    find_best_match text 0 dictionary = (Some text, Some r, length text) ∧
    ∀ r' w', (r', w') ∈ cands →
      ¬ flt (calculate_weight text w) (calculate_weight text w').
Proof.
  intros Hne Hkey Hprefix (r0 & w0 & Hin0 & Hscore0).
  assert (∀ r w, (r, w) ∈ cands →
            (text, length text, (r, w)) ∈ scan_order text 0 dictionary) as Hscan.
  { intros r w Hin. apply elem_of_scan_order. simpl.
    rewrite drop_0, take_ge by lia. split_and!; [|lia|done|by eauto].
    destruct text; [done|simpl; lia]. }
  unfold find_best_match.
  destruct (search_first_max text 0 dictionary)
    as [[_ Hnone]|(i & c & Hi & -> & _ & Hmax & _)].
  - by destruct (Hnone _ (Hscan r0 w0 Hin0)).
  - apply list_elem_of_lookup_2, elem_of_scan_order in Hi
      as (Hn & Hsub & cands' & Hd & Hin).
    rewrite drop_0 in Hsub.
    assert (c.1.2 = length text) as Hlen.
    { destruct (decide (c.1.2 < length text)) as [Hlt|]; [|lia].
      rewrite Hsub, Hprefix in Hd by lia. done. }
    rewrite Hlen, take_ge in Hsub by lia.
    rewrite Hsub, Hkey in Hd. injection Hd as <-.
    exists c.2.1, c.2.2. split_and!.
    + by destruct c as [? [??]].
    + simpl. by rewrite Hsub, Hlen.
    + intros r' w' Hin'. specialize (Hmax _ (Hscan r' w' Hin')).
      unfold score in Hmax. simpl in Hmax. by rewrite Hsub in Hmax.
Qed.

Lemma convert_loop_whole_key (fuel : nat) (text : pystr) (dictionary : index)
    (r : pystr) :
  text ≠ [] → 1 < fuel →
  find_best_match text 0 dictionary = (Some text, Some r, length text) →
  convert_loop fuel text dictionary 0 [] = Some (inr [Some r]).
Proof.
  intros Hne Hfuel Hfind.
  apply (convert_loop_mono 2); [|lia]. simpl.
  rewrite decide_True by (destruct text; [done|simpl; lia]).
  unfold loop_body. rewrite Hfind.
  destruct text as [|ch text]; [done|]. simpl.
  rewrite decide_False by lia. done.
Qed.

Lemma convert_whole_key (fuel : nat) (self : Converter) (text mode : pystr)
    (dictionary : index) (cands : list (pystr * float)) :
  select_dictionary self mode = inr dictionary →
  text ≠ [] → 1 < fuel →
  dictionary !! text = Some cands →
  (∀ len, 1 ≤ len < length text → dictionary !! take len text = None) →
  (∃ r w, (r, w) ∈ cands ∧ flt neg_infinity (calculate_weight text w)) →
  ∃ r w, (r, w) ∈ cands ∧
    convert fuel self text mode = Some (inr r) ∧
    ∀ r' w', (r', w') ∈ cands →
      ¬ flt (calculate_weight text w) (calculate_weight text w').
Proof.
  intros Hsel Hne Hfuel Hkey Hprefix Hscore.
  destruct (find_best_match_whole_key text dictionary cands Hne Hkey Hprefix Hscore)
    as (r & w & Hin & Hfind & Hmax).
  exists r, w. split_and!; [done| |done].
  unfold convert. rewrite Hsel.
  rewrite (convert_loop_whole_key fuel text dictionary r Hne Hfuel Hfind).
  simpl. by rewrite app_nil_r.
Qed.

End more_scan.

(** X9: in a valid mode and with more fuel than the text has characters,
    [convert] cuts the text, from left to right and without gap or overlap,
    into non-empty pieces, each one either a single character that is
    copied or a key of the selected index that is replaced by one of the
    replacements stored under it; the result is the concatenation of what
    was put for each piece. *)
Theorem X9_conversion_segments (fuel : nat) (self : Converter) (text mode : pystr)
    (dictionary : index)
    (Hsel : select_dictionary self mode = inr dictionary)
    (Hfuel : length text < fuel) :
  ∃ segs : list (pystr * pystr),
    concat segs.*1 = text ∧
    convert fuel self text mode = Some (inr (concat segs.*2)) ∧
    Forall (segment_ok dictionary) segs.
Proof.
  destruct (convert_loop_segments fuel text dictionary 0 [])
    as (segs & Hloop & Hcat & Hall); [lia..|].
  exists segs. split_and!; [by rewrite Hcat, drop_0| |done].
  unfold convert. rewrite Hsel. simpl in Hloop. rewrite Hloop. simpl.
  by rewrite join_Some.
Qed.

Lemma X9_conversion_segments_witness :
  ∃ c, __init__ payload_override = inr c ∧
    ∃ segs : list (pystr * pystr),
      concat segs.*1 = str "ab" ∧
      convert 3 c (str "ab") (str "t2c") = Some (inr (concat segs.*2)).
Proof.
  eexists. split; [vm_compute; reflexivity|].
  lazymatch goal with
  | |- ∃ segs : list (pystr * pystr), _ ∧ convert 3 ?c _ _ = _ =>
    destruct (X9_conversion_segments 3 c (str "ab") (str "t2c") (tw_to_zh c))
      as (segs & Hcat & Hconv & _)
  end.
  - reflexivity.
  - simpl. lia.
  - exists segs. split; [exact Hcat|exact Hconv].
Defined.

(** X10: the conversion of a text depends on the selected index only through
    the values it has under the non-empty substrings of the text: two
    converters whose selected indexes agree on these convert the text alike,
    so entries whose key does not occur in the text play no role. *)
Theorem X10_only_substrings_matter (fuel : nat) (self1 self2 : Converter)
    (text mode : pystr) (d1 d2 : index)
    (Hsel1 : select_dictionary self1 mode = inr d1)
    (Hsel2 : select_dictionary self2 mode = inr d2)
    (Hagree : ∀ i len, 1 ≤ len → i + len ≤ length text →
       d1 !! take len (drop i text) = d2 !! take len (drop i text)) :
  convert fuel self1 text mode = convert fuel self2 text mode.
Proof.
  unfold convert. rewrite Hsel1, Hsel2.
  by rewrite (convert_loop_local fuel text d1 d2 0 [] Hagree).
Qed.

Lemma X10_only_substrings_matter_witness :
  convert 2 (MkConverter 0 [] {[ str "b" := [(str "Z", 0%float)] ]} ∅)
    (str "a") (str "t2c") =
  convert 2 (MkConverter 0 [] ∅ ∅) (str "a") (str "t2c").
Proof.
  apply (X10_only_substrings_matter 2 _ _ (str "a") (str "t2c")
           {[ str "b" := [(str "Z", 0%float)] ]} ∅).
  - reflexivity.
  - reflexivity.
  - intros i len Hlen Hi. simpl in Hi.
    assert (i = 0 ∧ len = 1) as [-> ->] by lia.
    vm_compute. reflexivity.
Defined.

(** X11: a text none of whose non-empty substrings is a key of the selected
    index is returned unchanged. *)
Theorem X11_no_key_identity (fuel : nat) (self : Converter) (text mode : pystr)
    (dictionary : index)
    (Hsel : select_dictionary self mode = inr dictionary)
    (Hfuel : length text < fuel)
    (Hnokey : ∀ i len, 1 ≤ len → i + len ≤ length text →
       dictionary !! take len (drop i text) = None) :
  convert fuel self text mode = Some (inr text).
Proof.
  unfold convert. rewrite Hsel.
  rewrite (convert_loop_local fuel text dictionary ∅ 0 [])
    by (intros i len Hlen Hi; by rewrite Hnokey, lookup_empty).
  pose proof (convert_loop_empty fuel text 0 []) as Hloop. simpl in Hloop.
  rewrite Hloop by lia. simpl. by rewrite join_Some, concat_singletons.
Qed.

Lemma X11_no_key_identity_witness :
  convert 2 (MkConverter 0 [] {[ str "b" := [(str "Z", 0%float)] ]} ∅)
    (str "a") (str "t2c") = Some (inr (str "a")).
Proof.
  apply (X11_no_key_identity 2 _ (str "a") (str "t2c")
           {[ str "b" := [(str "Z", 0%float)] ]}).
  - reflexivity.
  - simpl. lia.
  - intros i len Hlen Hi. simpl in Hi.
    assert (i = 0 ∧ len = 1) as [-> ->] by lia.
    vm_compute. reflexivity.
Defined.



(** X13: with a dictionary of a single entry whose two forms are non-empty
    and score above negative infinity, the forward conversion of the source
    form is the target form and the reverse conversion of the target form is
    the source form. *)
Theorem X13_single_entry_round_trip (fuel : nat) (version : option Z)
    (tw cn : pystr) (weight : option float)
    (Htw : tw ≠ []) (Hcn : cn ≠ [])
    (Hfuel : 1 < fuel)
    (Hfwd : flt neg_infinity (calculate_weight tw (default 0%float weight)))
    (Hbwd : flt neg_infinity (calculate_weight cn (default 0%float weight))) :
  ∃ c, __init__ (Payload version (Some [Entry (Some tw) (Some cn) weight])) = inr c ∧
       convert fuel c tw (str "t2c") = Some (inr cn) ∧
       convert fuel c cn (str "c2t") = Some (inr tw).
Proof.
  set (w := default 0%float weight) in *.
  set (c := MkConverter (default 0%Z version) [Entry (Some tw) (Some cn) weight]
              (append_candidate ∅ tw (cn, w)) (append_candidate ∅ cn (tw, w))).
  exists c. split; [reflexivity|].
  assert (∀ (k v : pystr) len, 1 ≤ len < length k →
            append_candidate ∅ k (v, w) !! take len k = None) as Hprefix.
  { intros k v len Hlen. rewrite lookup_append_candidate, lookup_empty.
    rewrite decide_False; [done|].
    intros Heq%(f_equal length). rewrite length_take in Heq. lia. }
  assert (∀ (k v : pystr),
            append_candidate ∅ k (v, w) !! k = Some [(v, w)]) as Hkey.
  { intros k v. rewrite lookup_append_candidate, lookup_empty.
    by rewrite decide_True. }
  split.
  - destruct (convert_whole_key fuel c tw (str "t2c")
                (append_candidate ∅ tw (cn, w)) [(cn, w)])
      as (r & w' & Hin & Hconv & _);
      [reflexivity|exact Htw|exact Hfuel|apply Hkey|apply Hprefix| |].
    + exists cn, w. split; [apply elem_of_cons; by left|exact Hfwd].
    + apply list_elem_of_singleton in Hin. injection Hin as -> _. exact Hconv.
  - destruct (convert_whole_key fuel c cn (str "c2t")
                (append_candidate ∅ cn (tw, w)) [(tw, w)])
      as (r & w' & Hin & Hconv & _);
      [reflexivity|exact Hcn|exact Hfuel|apply Hkey|apply Hprefix| |].
    + exists tw, w. split; [apply elem_of_cons; by left|exact Hbwd].
    + apply list_elem_of_singleton in Hin. injection Hin as -> _. exact Hconv.
Qed.

Lemma X13_single_entry_round_trip_witness :
  ∃ c, __init__ (Payload None (Some [entry_of "ab" "XYZ" None])) = inr c ∧
       convert 2 c (str "ab") (str "t2c") = Some (inr (str "XYZ")) ∧
       convert 2 c (str "XYZ") (str "c2t") = Some (inr (str "ab")).
Proof.
  apply (X13_single_entry_round_trip 2 None (str "ab") (str "XYZ") None).
  - discriminate.
  - discriminate.
  - lia.
  - vm_compute. reflexivity.
  - vm_compute. reflexivity.
Defined.

(** ** Conversion of a concatenation *)

Section concatenation.

Lemma bind_nil_all {A B} (f : A → list B) (l : list A) :
  (∀ x, x ∈ l → f x = []) → l ≫= f = [].
Proof.
  induction l as [|x l IH]; intros Hf; [done|].
  rewrite bind_cons, Hf, IH; [done| |by left].
  intros y Hy. apply Hf. by right.
Qed.

(** Inside the first part, when no key reaches over the cut, the candidates
    are those of the first part alone. *)
Lemma scan_order_app_l (t1 t2 : pystr) (d : index) (pos : nat) :
  pos < length t1 →
  (∀ i len, i < length t1 → length t1 < i + len →
     i + len ≤ length t1 + length t2 →
     d !! take len (drop i (t1 ++ t2)) = None) →
  scan_order (t1 ++ t2) pos d = scan_order t1 pos d.
Proof.
  intros Hpos Hcut. unfold scan_order. rewrite length_app.
  replace (length t1 + length t2 - pos)
    with ((length t1 - pos) + length t2) by lia.
  rewrite seq_app, bind_app.
  rewrite (bind_nil_all _ (seq (1 + (length t1 - pos)) (length t2))).
  - rewrite app_nil_r. apply Forall_bind_ext, Forall_forall.
    intros len Hlen%elem_of_seq.
    rewrite drop_app_le by lia.
    rewrite take_app_le by (rewrite length_drop; lia). done.
  - intros len Hlen%elem_of_seq. by rewrite Hcut by lia.
Qed.

(** From the cut on, the candidates are those of the second part. *)
Lemma scan_order_app_r (t1 t2 : pystr) (d : index) (j : nat) :
  scan_order (t1 ++ t2) (length t1 + j) d = scan_order t2 j d.
Proof.
  unfold scan_order. rewrite length_app, drop_app_add.
  by replace (length t1 + length t2 - (length t1 + j)) with (length t2 - j) by lia.
Qed.

Lemma loop_body_app_l (t1 t2 : pystr) (d : index) pos result :
  pos < length t1 →
  (∀ i len, i < length t1 → length t1 < i + len →
     i + len ≤ length t1 + length t2 →
     d !! take len (drop i (t1 ++ t2)) = None) →
  loop_body (t1 ++ t2) d pos result = loop_body t1 d pos result.
Proof.
  intros Hpos Hcut. unfold loop_body, find_best_match.
  rewrite !search_scan_order, scan_order_app_l by done.
  by rewrite lookup_app_l.
Qed.

Lemma loop_body_app_r (t1 t2 : pystr) (d : index) j result :
  loop_body (t1 ++ t2) d (length t1 + j) result =
    match loop_body t2 d j result with
    | inl err => inl err
    | inr (pos', result') => inr (length t1 + pos', result')
    end.
Proof.
  unfold loop_body, find_best_match.
  rewrite !search_scan_order, scan_order_app_r.
  destruct (truthy _); [by rewrite Nat.add_assoc|].
  rewrite lookup_app_r by lia.
  replace (length t1 + j - length t1) with j by lia.
  destruct (t2 !! j); [by rewrite Nat.add_assoc|done].
Qed.

Lemma convert_loop_app_r (fuel : nat) (t1 t2 : pystr) (d : index) j result :
  convert_loop fuel (t1 ++ t2) d (length t1 + j) result =
  convert_loop fuel t2 d j result.
Proof.
  revert j result. induction fuel as [|fuel IH]; intros j result; [done|].
  simpl. rewrite length_app, loop_body_app_r.
  destruct (decide (j < length t2)).
  - rewrite decide_True by lia.
    destruct (loop_body t2 d j result) as [err|[pos' result']]; [done|].
    apply IH.
  - by rewrite decide_False by lia.
Qed.

Lemma convert_loop_app (f1 f2 : nat) (t1 t2 : pystr) (d : index) pos result
    result1 r :
  pos ≤ length t1 →
  (∀ i len, i < length t1 → length t1 < i + len →
     i + len ≤ length t1 + length t2 →
     d !! take len (drop i (t1 ++ t2)) = None) →
  convert_loop f1 t1 d pos result = Some (inr result1) →
  convert_loop f2 t2 d 0 result1 = Some r →
  convert_loop (f1 + f2) (t1 ++ t2) d pos result = Some r.
Proof.
  intros Hpos Hcut. revert pos result Hpos.
  induction f1 as [|f1 IH]; intros pos result Hpos H1 H2; [done|].
  simpl in H1. destruct (decide (pos < length t1)) as [Hlt|Hge].
  - simpl. rewrite length_app, decide_True by lia.
    rewrite loop_body_app_l by done.
    destruct (loop_body_ok t1 d pos result Hlt) as (pos' & piece & Hbody & Hpos' & _).
    rewrite Hbody in H1 |- *. apply IH; [lia|done..].
  - injection H1 as <-. assert (pos = length t1) as -> by lia.
    pose proof (convert_loop_app_r (S f1 + f2) t1 t2 d 0 result) as Hr.
    rewrite Nat.add_0_r in Hr. rewrite Hr.
    eapply convert_loop_mono; [exact H2|lia].
Qed.

(** What was appended before the loop starts stays in front. *)
Lemma convert_loop_acc (fuel : nat) (text : pystr) (d : index) pos
    (acc result : list (option pystr)) :
  convert_loop fuel text d pos (acc ++ result) =
    match convert_loop fuel text d pos result with
    | Some (inr result') => Some (inr (acc ++ result'))
    | other => other
    end.
Proof.
  revert pos result. induction fuel as [|fuel IH]; intros pos result; [done|].
  simpl. case_decide; [|done]. unfold loop_body.
  destruct (find_best_match text pos d) as [[m rep] len].
  destruct (truthy m); [by rewrite <- app_assoc, IH|].
  destruct (text !! pos); [by rewrite <- app_assoc, IH|done].
Qed.

Lemma convert_app (fuel : nat) (self : Converter) (t1 t2 mode : pystr) (d : index) :
  select_dictionary self mode = inr d →
  length t1 + length t2 < fuel →
  (∀ i len, i < length t1 → length t1 < i + len →
     i + len ≤ length t1 + length t2 →
     d !! take len (drop i (t1 ++ t2)) = None) →
  ∃ o1 o2,
    convert fuel self t1 mode = Some (inr o1) ∧
    convert fuel self t2 mode = Some (inr o2) ∧
    convert fuel self (t1 ++ t2) mode = Some (inr (o1 ++ o2)).
Proof.
  intros Hsel Hfuel Hcut.
  destruct (convert_loop_ok fuel t1 d 0 []) as (p1 & H1 & _); [lia..|].
  destruct (convert_loop_ok fuel t2 d 0 []) as (p2 & H2 & _); [lia..|].
  destruct (convert_loop_ok fuel (t1 ++ t2) d 0 []) as (p & H & _);
    [lia|rewrite length_app; lia|].
  simpl in H1, H2, H.
  assert (convert_loop (fuel + fuel) (t1 ++ t2) d 0 [] =
            Some (inr (Some <$> (p1 ++ p2)))) as H12.
  { eapply convert_loop_app; [lia|done|exact H1|].
    rewrite <- (app_nil_r (Some <$> p1)), convert_loop_acc, H2.
    by rewrite fmap_app. }
  rewrite (convert_loop_mono fuel (fuel + fuel) _ _ _ _ _ H) in H12 by lia.
  injection H12 as H12. apply (inj (fmap Some)) in H12. subst p.
  exists (concat p1), (concat p2). unfold convert. rewrite Hsel, H1, H2, H.
  simpl. rewrite !join_Some. by rewrite concat_app.
Qed.

End concatenation.

(** X18: when no key of the selected index starts inside [t1] and ends
    inside [t2], converting [t1 ++ t2] gives the conversion of [t1] followed
    by the conversion of [t2]. *)
Theorem X18_concatenation (fuel : nat) (self : Converter) (t1 t2 mode : pystr)
    (dictionary : index)
    (Hsel : select_dictionary self mode = inr dictionary)
    (Hfuel : length t1 + length t2 < fuel)
    (Hcut : ∀ i len, i < length t1 → length t1 < i + len →
       i + len ≤ length t1 + length t2 →
       dictionary !! take len (drop i (t1 ++ t2)) = None) :
  ∃ o1 o2,
    convert fuel self t1 mode = Some (inr o1) ∧
    convert fuel self t2 mode = Some (inr o2) ∧
    convert fuel self (t1 ++ t2) mode = Some (inr (o1 ++ o2)).
Proof. exact (convert_app fuel self t1 t2 mode dictionary Hsel Hfuel Hcut). Qed.

Lemma X18_concatenation_witness :
  ∃ o1 o2,
    convert 3 (MkConverter 0 [] {[ str "a" := [(str "Y", 0%float)] ]} ∅)
      (str "a") (str "t2c") = Some (inr o1) ∧
    convert 3 (MkConverter 0 [] {[ str "a" := [(str "Y", 0%float)] ]} ∅)
      (str "b") (str "t2c") = Some (inr o2) ∧
    convert 3 (MkConverter 0 [] {[ str "a" := [(str "Y", 0%float)] ]} ∅)
      (str "a" ++ str "b") (str "t2c") = Some (inr (o1 ++ o2)).
Proof.
  apply (X18_concatenation 3 _ (str "a") (str "b") (str "t2c")
           {[ str "a" := [(str "Y", 0%float)] ]}).
  - reflexivity.
  - simpl. lia.
  - intros i len Hi Hlen Hle. simpl in Hi, Hlen, Hle.
    assert (i = 0 ∧ len = 2) as [-> ->] by lia.
    vm_compute. reflexivity.
Defined.
